(** * Command pattern: invoker, commands, macro commands

    A shallow embedding of [src/VanillaPatterns/DesignPatterns/CommandPattern.ts]
    and the properties of its command execution and undo engine.

    Modelling choices, all read off the source:

    - [Light] and [TV] have no fields: their only observable behaviour is
      the line each method prints with [console.log].  The console is a
      list of lines in the order printed.
    - The four leaf commands hold one receiver in a private field assigned
      once, in the constructor.  [MacroCommand] holds a REFERENCE to a
      JavaScript array ([this.commands = commands], no copy), and
      [Array.prototype.reverse] mutates that array in place, so arrays
      live in a store and a macro command holds a location of it.
    - No field of a command is assigned after the constructor and no code
      compares two commands, so a command object is the value of its
      fields: the same instance is the same value, and what two uses of
      one macro command share is the array at its location.
    - An index is an integer ([Z]); the source's [number] also has
      fractions and NaN, which no property here is about.
    - [RemoteControl] owns a private array created by its field
      initialiser, which never leaves the object: it is a field of the
      record, passed explicitly from call to call.
    - Every method is declared [void]: a call completes normally with the
      value [undefined], or abruptly with a thrown error.
    - [command.execute()] on a macro command calls itself on the members,
      and a store may hold a cycle (a client can push a macro into its own
      array), so the dispatch functions take fuel, a bound on the nesting
      of calls; JavaScript's "too much recursion" is the completion
      [OutOfFuel]. *)

From Stdlib Require Import ZArith Lia.
From stdpp Require Import base list strings pretty.

Open Scope string_scope.
Open Scope list_scope.

(** ** Values, completions, the store *)

(* a location of the store *)
Abbreviation loc := nat (only parsing).

Inductive JsValue :=
| undefined
| number (z : Z).

Inductive Error :=
| TypeError   (* a method called on [undefined] *)
| OutOfFuel   (* nesting of calls deeper than the fuel *)
| Dangling.   (* a location outside the store: no JavaScript reference is *)

Inductive completion :=
| Normal (v : JsValue)
| Abrupt (e : Error).

(* class Light / class TV: no fields *)
Inductive Light := new_Light.
Inductive TV := new_TV.

(* interface Command, with the five classes that implement it *)
Inductive Command :=
| LightOnCommand (light : Light)
| LightOffCommand (light : Light)
| TVOnCommand (tv : TV)
| TVOffCommand (tv : TV)
| MacroCommand (commands : loc).

Record World := mkWorld {
  arrays : list (list Command);   (* the arrays of commands, by location *)
  console : list string           (* the lines printed, oldest first *)
}.

(* A computation on a state [S]: the completion and the state it leaves. *)
Definition M (S : Type) := S -> completion * S.

Definition ret {S} (v : JsValue) : M S := fun s => (Normal v, s).
Definition throw {S} (e : Error) : M S := fun s => (Abrupt e, s).

(* statement sequencing: an abrupt completion skips what follows *)
Definition seq {S} (m1 m2 : M S) : M S := fun s =>
  match m1 s with
  | (Normal _, s') => m2 s'
  | (Abrupt e, s') => (Abrupt e, s')
  end.

Notation "m1 >>> m2" := (seq m1 m2) (at level 63, right associativity).

Definition console_log (line : string) : M World := fun w =>
  (Normal undefined, mkWorld (arrays w) (console w ++ [line])).

(* the array literal [[c1, ..., cn]]: a fresh array *)
Definition array_literal (elems : list Command) (w : World) : loc * World :=
  (length (arrays w), mkWorld (arrays w ++ [elems]) (console w)).

(* xs[index] on an array of the given elements; [None] is [undefined] *)
Definition Array_get {A} (xs : list A) (index : Z) : option A :=
  if (index <? 0)%Z then None else xs !! Z.to_nat index.

(* Array.prototype.reverse: in place, the same array is returned *)
Definition Array_reverse (O : loc) : M World := fun w =>
  match arrays w !! O with
  | Some elems => (Normal undefined, mkWorld (<[O := rev elems]> (arrays w)) (console w))
  | None => (Abrupt Dangling, w)
  end.

(* Array.prototype.forEach: the length is read once, each element is read
   from the array when its turn comes, an absent index is skipped *)
Fixpoint forEach_from (callbackfn : Command -> M World) (O : loc) (k n : nat) : M World :=
  match n with
  | 0 => ret undefined
  | S n' => fun w =>
      match arrays w !! O ≫= (.!! k) with
      | Some kValue => (callbackfn kValue >>> forEach_from callbackfn O (S k) n') w
      | None => forEach_from callbackfn O (S k) n' w
      end
  end.

Definition Array_forEach (O : loc) (callbackfn : Command -> M World) : M World := fun w =>
  match arrays w !! O with
  | Some elems => forEach_from callbackfn O 0 (length elems) w
  | None => (Abrupt Dangling, w)
  end.

(** ** Receivers *)

Module Light.
Definition on (this : Light) : M World := console_log "Light is ON".
Definition off (this : Light) : M World := console_log "Light is OFF".
End Light.

Module TV.
Definition on (this : TV) : M World := console_log "TV is ON".
Definition off (this : TV) : M World := console_log "TV is OFF".
End TV.

(** ** Commands *)

Module LightOnCommand.
Definition execute (light : Light) : M World := Light.on light.
Definition undo (light : Light) : M World := Light.off light.
End LightOnCommand.

Module LightOffCommand.
Definition execute (light : Light) : M World := Light.off light.
Definition undo (light : Light) : M World := Light.on light.
End LightOffCommand.

Module TVOnCommand.
Definition execute (tv : TV) : M World := TV.on tv.
Definition undo (tv : TV) : M World := TV.off tv.
End TVOnCommand.

Module TVOffCommand.
Definition execute (tv : TV) : M World := TV.off tv.
Definition undo (tv : TV) : M World := TV.on tv.
End TVOffCommand.

(* The methods of MacroCommand, over the dispatch [command.execute()] /
   [command.undo()] of the members. *)
Module MacroCommand.
Definition execute (member_execute : Command -> M World) (commands : loc) : M World :=
  Array_forEach commands member_execute.
Definition undo (member_undo : Command -> M World) (commands : loc) : M World :=
  Array_reverse commands >>> Array_forEach commands member_undo.
End MacroCommand.

(* command.execute(), by the class of [command] *)
Fixpoint execute (fuel : nat) (command : Command) {struct fuel} : M World :=
  match command with
  | LightOnCommand light => LightOnCommand.execute light
  | LightOffCommand light => LightOffCommand.execute light
  | TVOnCommand tv => TVOnCommand.execute tv
  | TVOffCommand tv => TVOffCommand.execute tv
  | MacroCommand commands =>
      match fuel with
      | 0 => throw OutOfFuel
      | S fuel' => MacroCommand.execute (execute fuel') commands
      end
  end.

(* command.undo(), by the class of [command] *)
Fixpoint undo (fuel : nat) (command : Command) {struct fuel} : M World :=
  match command with
  | LightOnCommand light => LightOnCommand.undo light
  | LightOffCommand light => LightOffCommand.undo light
  | TVOnCommand tv => TVOnCommand.undo tv
  | TVOffCommand tv => TVOffCommand.undo tv
  | MacroCommand commands =>
      match fuel with
      | 0 => throw OutOfFuel
      | S fuel' => MacroCommand.undo (undo fuel') commands
      end
  end.

(** ** The invoker *)

Record RemoteControl := mkRemoteControl {
  commands : list Command;        (* private commands: Command[] = [] *)
  undoCommand : option Command    (* private undoCommand: Command | null = null *)
}.

Definition new_RemoteControl : RemoteControl := mkRemoteControl [] None.

Module RemoteControl.
Definition setCommand (command : Command) : M RemoteControl := fun this =>
  (Normal undefined, mkRemoteControl (commands this ++ [command]) (undoCommand this)).

Definition pressButton (fuel : nat) (index : Z) : M (RemoteControl * World) :=
  fun '(this, w) =>
    if (index <? Z.of_nat (length (commands this)))%Z then
      match Array_get (commands this) index with
      | Some command =>
          match execute fuel command w with
          | (Normal _, w') =>
              (Normal undefined,
               (mkRemoteControl (commands this) (Array_get (commands this) index), w'))
          | (Abrupt e, w') => (Abrupt e, (this, w'))
          end
      | None => (Abrupt TypeError, (this, w))
      end
    else
      match console_log "Command not found" w with
      | (c, w') => (c, (this, w'))
      end.

Definition pressUndo (fuel : nat) : M (RemoteControl * World) :=
  fun '(this, w) =>
    match undoCommand this with
    | Some command =>
        match undo fuel command w with
        | (Normal _, w') =>
            (Normal undefined, (mkRemoteControl (commands this) None, w'))
        | (Abrupt e, w') => (Abrupt e, (this, w'))
        end
    | None =>
        match console_log "No command to undo" w with
        | (c, w') => (c, (this, w'))
        end
    end.
End RemoteControl.


(** ** Sequences of calls on the invoker *)

Inductive Call :=
| PressButton (index : Z)
| PressUndo.

Definition call (fuel : nat) (c : Call) : M (RemoteControl * World) :=
  match c with
  | PressButton index => RemoteControl.pressButton fuel index
  | PressUndo => RemoteControl.pressUndo fuel
  end.

(* the calls issued one after the other, whatever the completion of each
   (a caller may catch what a call throws and go on) *)
Fixpoint run_calls (fuel : nat) (calls : list Call) (s : RemoteControl * World)
  : RemoteControl * World :=
  match calls with
  | [] => s
  | c :: calls' => run_calls fuel calls' (snd (call fuel c s))
  end.

(* remote.setCommand(c1); ...; remote.setCommand(cn) *)
Fixpoint setCommands (cs : list Command) : M RemoteControl :=
  match cs with
  | [] => ret undefined
  | c :: cs' => RemoteControl.setCommand c >>> setCommands cs'
  end.

(** ** The client code *)

Definition light : Light := new_Light.
Definition tv : TV := new_TV.

Definition lightOn : Command := LightOnCommand light.
Definition lightOff : Command := LightOffCommand light.
Definition tvOn : Command := TVOnCommand tv.
Definition tvOff : Command := TVOffCommand tv.

(* nothing allocated, nothing printed *)
Definition empty_world : World := mkWorld [] [].

(* the two macro commands of the client code, each over its own array
   literal, and the world that holds the two arrays *)
Definition party_modes : Command * Command * World :=
  let '(a_on, w) := array_literal [lightOn; tvOn] empty_world in
  let '(a_off, w) := array_literal [lightOff; tvOff] w in
  (MacroCommand a_on, MacroCommand a_off, w).

Definition partyModeOn : Command := fst (fst party_modes).
Definition partyModeOff : Command := snd (fst party_modes).

(* pressButton(0); ...; pressButton(5); pressUndo() *)
Definition presses (fuel : nat) : M (RemoteControl * World) :=
  RemoteControl.pressButton fuel 0 >>> RemoteControl.pressButton fuel 1 >>>
  RemoteControl.pressButton fuel 2 >>> RemoteControl.pressButton fuel 3 >>>
  RemoteControl.pressButton fuel 4 >>> RemoteControl.pressButton fuel 5 >>>
  RemoteControl.pressUndo fuel.

(* a remote with the given commands registered in order, then the presses *)
Definition session (fuel : nat) (registered : list Command) : completion * (RemoteControl * World) :=
  let remote := snd (setCommands registered new_RemoteControl) in
  presses fuel (remote, snd party_modes).

(* the registration order of the client code (source lines 174-179) *)
Definition client (fuel : nat) : completion * (RemoteControl * World) :=
  session fuel [lightOn; tvOn; lightOff; tvOff; partyModeOn; partyModeOff].

(* the registration order of the specification's scenario *)
Definition scenario (fuel : nat) : completion * (RemoteControl * World) :=
  session fuel [lightOn; lightOff; tvOn; tvOff; partyModeOn; partyModeOff].

(** ** Observations

    A receiver has no field to read: what can be observed of it is the
    last line it printed.  [initial] is the state it is taken to be in
    before it printed anything. *)

Inductive Power := ON | OFF.

Definition opposite (p : Power) : Power :=
  match p with ON => OFF | OFF => ON end.

Definition Light_line (state : Power) (line : string) : Power :=
  if decide (line = "Light is ON") then ON
  else if decide (line = "Light is OFF") then OFF
  else state.

Definition TV_line (state : Power) (line : string) : Power :=
  if decide (line = "TV is ON") then ON
  else if decide (line = "TV is OFF") then OFF
  else state.

Definition lightState (initial : Power) (lines : list string) : Power :=
  foldl Light_line initial lines.

Definition tvState (initial : Power) (lines : list string) : Power :=
  foldl TV_line initial lines.

(* a line printed by a method of a receiver *)
Definition receiver_line (line : string) : bool :=
  bool_decide (line ∈ ["Light is ON"; "Light is OFF"; "TV is ON"; "TV is OFF"]).

(* the number of receiver methods run, read off the lines they printed *)
Definition receiverActions (lines : list string) : nat :=
  length (filter (fun line => receiver_line line = true) lines).

(* what was printed between the world [w] and the later world [w'] *)
Definition printed (w w' : World) : list string :=
  drop (length (console w)) (console w').

(** ** Specification vocabulary *)

(* [f] called on c1, ..., cn, in that order, each call run to completion
   before the next *)
Fixpoint runEach (f : Command -> M World) (cs : list Command) : M World :=
  match cs with
  | [] => ret undefined
  | c :: cs' => f c >>> runEach f cs'
  end.

(* the state of the undo slot *)
Inductive UndoSlot :=
| Empty
| Holding (cmd : Command).

Definition slot (this : RemoteControl) : UndoSlot :=
  match undoCommand this with
  | Some cmd => Holding cmd
  | None => Empty
  end.

(* the nesting of calls that running a command needs; arrays are numbered
   in the order of their allocation *)
Definition depth (c : Command) : nat :=
  match c with
  | MacroCommand a => S a
  | _ => 0
  end.

(* Every array holds macro commands over earlier arrays only.  Array
   literals and [reverse], the only operations of the source on these
   arrays, keep it so; a store like this has no cycle. *)
Fixpoint wf_from (a : loc) (σ : list (list Command)) : bool :=
  match σ with
  | [] => true
  | cs :: σ' => forallb (fun c => Nat.leb (depth c) a) cs && wf_from (S a) σ'
  end.

Definition wf_arrays (σ : list (list Command)) : bool := wf_from 0 σ.

(* the leaf commands *)
Definition is_leaf (c : Command) : bool :=
  match c with
  | MacroCommand _ => false
  | _ => true
  end.

(* the state in which a leaf command's execute() leaves the light, if it
   acts on the light *)
Definition light_target (c : Command) : option Power :=
  match c with
  | LightOnCommand _ => Some ON
  | LightOffCommand _ => Some OFF
  | _ => None
  end.

Definition tv_target (c : Command) : option Power :=
  match c with
  | TVOnCommand _ => Some ON
  | TVOffCommand _ => Some OFF
  | _ => None
  end.

(* the first of these that a list of leaf commands reaches *)
Fixpoint first_target (target : Command -> option Power) (cs : list Command) : option Power :=
  match cs with
  | [] => None
  | c :: cs' =>
      match target c with
      | Some p => Some p
      | None => first_target target cs'
      end
  end.

(* the leaf commands a command runs: itself, or the members of a macro
   command whose members are all leaf commands *)
Definition leaves (σ : list (list Command)) (c : Command) : option (list Command) :=
  match c with
  | MacroCommand a =>
      match σ !! a with
      | Some cs => if forallb is_leaf cs then Some cs else None
      | None => None
      end
  | _ => Some [c]
  end.

(* what holds of the world while undo() of a macro command over the array
   [a] iterates: no cycle, nothing allocated, and the arrays from [a] on
   are those of the store [σ1] that [reverse] left *)
Definition undo_inv (L : nat) (a : loc) (σ1 : list (list Command)) (w : World) : Prop :=
  wf_arrays (arrays w) = true /\
  length (arrays w) = L /\
  forall b, a <= b -> arrays w !! b = σ1 !! b.

(* the lines a computation prints, run from the empty world *)
Definition lines_of (m : M World) : list string :=
  console (snd (m empty_world)).

(* the lines that [f] prints on c1, ..., cn, in that order *)
Definition lines_each (f : Command -> M World) (cs : list Command) : list string :=
  flat_map (fun c => lines_of (f c)) cs.

(** ** Vocabulary for whole runs of the invoker *)

(* an array afterwards: what it was, or its reverse *)
Definition same_or_reversed (cs cs' : list Command) : Prop :=
  cs' = cs \/ cs' = rev cs.

(* a client's use of a RemoteControl: a registration or a press *)
Inductive Action :=
| Register (command : Command)
| Press (c : Call).

Definition act (fuel : nat) (a : Action) (s : RemoteControl * World)
  : completion * (RemoteControl * World) :=
  match a with
  | Register command =>
      match RemoteControl.setCommand command (fst s) with
      | (c, this') => (c, (this', snd s))
      end
  | Press c => call fuel c s
  end.

Fixpoint run_actions (fuel : nat) (actions : list Action) (s : RemoteControl * World)
  : RemoteControl * World :=
  match actions with
  | [] => s
  | a :: actions' => run_actions fuel actions' (snd (act fuel a s))
  end.

(* the completion of each call of a run, in order *)
Fixpoint completions (fuel : nat) (calls : list Call) (s : RemoteControl * World)
  : list completion :=
  match calls with
  | [] => []
  | c :: calls' => fst (call fuel c s) :: completions fuel calls' (snd (call fuel c s))
  end.

(* The undo slot as a machine on its own, over the registered commands:
   a press of an index that holds a command leaves it Holding that
   command, a press of any other index leaves it as it is, an undo leaves
   it Empty. *)
Definition slot_step (registered : list Command) (st : UndoSlot) (c : Call) : UndoSlot :=
  match c with
  | PressButton index =>
      match Array_get registered index with
      | Some cmd => Holding cmd
      | None => st
      end
  | PressUndo => Empty
  end.

Definition slot_after (registered : list Command) (st : UndoSlot) (calls : list Call)
  : UndoSlot :=
  foldl (slot_step registered) st calls.

(* no call with a negative index *)
Definition no_negative_index (calls : list Call) : bool :=
  forallb (fun c => match c with
                    | PressButton index => (0 <=? index)%Z
                    | PressUndo => true
                    end) calls.

(* A state in which every press completes: a store without cycles, the
   registered commands and the held one over arrays of the store, and
   fuel for the deepest nesting the store allows. *)
Definition ready (fuel : nat) (s : RemoteControl * World) : bool :=
  wf_arrays (arrays (snd s)) &&
  forallb (fun c => Nat.leb (depth c) (length (arrays (snd s)))) (commands (fst s)) &&
  match undoCommand (fst s) with
  | Some c => Nat.leb (depth c) (length (arrays (snd s)))
  | None => true
  end &&
  Nat.leb (length (arrays (snd s))) fuel.

(** ** Vocabulary for cycles and for repeated undo() *)

Definition is_macro_over (a : loc) (c : Command) : bool :=
  match c with
  | MacroCommand b => Nat.eqb b a
  | _ => false
  end.

(* the array at [a] holds a macro command over that same array (a client
   that keeps the array it gave to a MacroCommand can push the macro
   command into it) *)
Definition holds_itself (σ : list (list Command)) (a : loc) : bool :=
  match σ !! a with
  | Some cs => existsb (is_macro_over a) cs
  | None => false
  end.

(* One flag per array of the store: is it left reversed? *)
Definition xorv (p q : list bool) : list bool := zip_with xorb p q.

Definition unitv (L : nat) (a : loc) : list bool := <[a := true]> (replicate L false).

Definition flipby (p : list bool) (σ : list (list Command)) : list (list Command) :=
  zip_with (fun (b : bool) cs => if b then rev cs else cs) p σ.

(* the arrays that undo() of a command leaves reversed: its own and, one
   more time for each call, those the members leave reversed *)
Fixpoint flips (fuel : nat) (σ : list (list Command)) (c : Command) {struct fuel}
  : list bool :=
  match c with
  | MacroCommand a =>
      match fuel with
      | 0 => replicate (length σ) false
      | S n => foldr xorv (unitv (length σ) a) (map (flips n σ) (default [] (σ !! a)))
      end
  | _ => replicate (length σ) false
  end.

(** * The other examples of the repository

    Each example is a program of its own; a module per example keeps the
    names of its classes.  Numbers are integers ([Z]) here too: the
    volumes and speeds of these examples are integers, which [number]
    holds exactly up to 2^53, and a template literal prints an integer in
    decimal, as [pretty] does. *)

(** ** Bridge: a remote control over a device *)

Module Bridge.

(* the classes TV and Radio that implement Device *)
Inductive DeviceClass := TV | Radio.

(* a device object: its class and its private fields *)
Record Device := mkDevice {
  class : DeviceClass;
  on : bool;          (* private on = false *)
  volume : Z          (* private volume = 30 (TV), 50 (Radio) *)
}.

Definition new_TV : Device := mkDevice TV false 30.
Definition new_Radio : Device := mkDevice Radio false 50.

(* the device a remote control holds, and the console *)
Record State := mkState {
  device : Device;
  console : list string
}.

Definition isEnabled (d : Device) : bool := on d.

Definition enable (s : State) : State :=
  let d := device s in
  mkState (mkDevice (class d) true (volume d))
    (console s ++ [match class d with
                   | TV => "TV turned on"
                   | Radio => "Radio turned on"
                   end]).

Definition disable (s : State) : State :=
  let d := device s in
  mkState (mkDevice (class d) false (volume d))
    (console s ++ [match class d with
                   | TV => "TV turned off"
                   | Radio => "Radio turned off"
                   end]).

Definition getVolume (d : Device) : Z := volume d.

Definition setVolume (percent : Z) (s : State) : State :=
  let d := device s in
  mkState (mkDevice (class d) (on d) percent)
    (console s ++ [match class d with
                   | TV => "TV volume set to "
                   | Radio => "Radio volume set to "
                   end +:+ pretty percent]).

(* class RemoteControl *)
Definition togglePower (s : State) : State :=
  if isEnabled (device s) then disable s else enable s.

Definition volumeDown (s : State) : State :=
  setVolume (getVolume (device s) - 10) s.

Definition volumeUp (s : State) : State :=
  setVolume (getVolume (device s) + 10) s.

(* class AdvancedRemoteControl extends RemoteControl *)
Definition mute (s : State) : State :=
  let s' := setVolume 0 s in
  mkState (device s') (console s' ++ ["Muted the device"]).

(* the calls a client makes on the remote controls of one device *)
Inductive Button := TogglePower | VolumeDown | VolumeUp | Mute.

Definition press (s : State) (b : Button) : State :=
  match b with
  | TogglePower => togglePower s
  | VolumeDown => volumeDown s
  | VolumeUp => volumeUp s
  | Mute => mute s
  end.

Definition presses (buttons : list Button) (s : State) : State :=
  foldl press s buttons.

(* counting the calls of a run *)
Definition toggles (buttons : list Button) : nat :=
  length (List.filter (fun b => match b with TogglePower => true | _ => false end)
            buttons).




End Bridge.

(** ** Builder: computers built part by part *)

Module Builder.

Record Computer := mkComputer {
  cpu : string;
  ram : string;
  gpu : string;
  storage : string
}.

(* new Computer(): every part is the empty string *)
Definition new_Computer : Computer := mkComputer "" "" "" "".

Definition specs (this : Computer) : string :=
  "CPU: " +:+ cpu this +:+ ", RAM: " +:+ ram this +:+
  ", GPU: " +:+ gpu this +:+ ", Storage: " +:+ storage this.

Inductive BuilderClass := OfficeComputerBuilder | GamingComputerBuilder.

(* A builder: its class and the Computer object its constructor made,
   which it keeps for good (a location of the store of computers). *)
Record ComputerBuilder := mkBuilder {
  class : BuilderClass;
  computer : nat
}.

(* new OfficeComputerBuilder() / new GamingComputerBuilder() *)
Definition new_builder (k : BuilderClass) (computers : list Computer)
  : ComputerBuilder * list Computer :=
  (mkBuilder k (length computers), computers ++ [new_Computer]).

Definition addCPU (this : ComputerBuilder) : M (list Computer) := fun computers =>
  match computers !! computer this with
  | Some c =>
      (Normal undefined,
       <[computer this :=
           mkComputer (match class this with
                       | OfficeComputerBuilder => "Intel Core i5"
                       | GamingComputerBuilder => "AMD Ryzen 7"
                       end) (ram c) (gpu c) (storage c)]> computers)
  | None => (Abrupt Dangling, computers)
  end.

Definition addRAM (this : ComputerBuilder) : M (list Computer) := fun computers =>
  match computers !! computer this with
  | Some c =>
      (Normal undefined,
       <[computer this :=
           mkComputer (cpu c) (match class this with
                               | OfficeComputerBuilder => "16GB"
                               | GamingComputerBuilder => "32GB"
                               end) (gpu c) (storage c)]> computers)
  | None => (Abrupt Dangling, computers)
  end.

Definition addGPU (this : ComputerBuilder) : M (list Computer) := fun computers =>
  match computers !! computer this with
  | Some c =>
      (Normal undefined,
       <[computer this :=
           mkComputer (cpu c) (ram c) (match class this with
                                       | OfficeComputerBuilder => "Integrated Graphics"
                                       | GamingComputerBuilder => "NVIDIA RTX 3080"
                                       end) (storage c)]> computers)
  | None => (Abrupt Dangling, computers)
  end.

Definition addStorage (this : ComputerBuilder) : M (list Computer) := fun computers =>
  match computers !! computer this with
  | Some c =>
      (Normal undefined,
       <[computer this :=
           mkComputer (cpu c) (ram c) (gpu c) (match class this with
                                               | OfficeComputerBuilder => "512GB SSD"
                                               | GamingComputerBuilder => "1TB SSD + 2TB HDD"
                                               end)]> computers)
  | None => (Abrupt Dangling, computers)
  end.

(* getComputer(): the builder's Computer object itself, not a copy *)
Definition getComputer (this : ComputerBuilder) : nat := computer this.

(* The director.  Its constructor sets [builder] to an empty object cast
   to ComputerBuilder ([None]): a call of a method on it throws. *)
Record ComputerDirector := mkDirector {
  builder : option ComputerBuilder
}.

Definition new_ComputerDirector : ComputerDirector := mkDirector None.

Definition setBuilder (b : ComputerBuilder) (this : ComputerDirector) : ComputerDirector :=
  mkDirector (Some b).

Definition buildStandardComputer (this : ComputerDirector) : M (list Computer) :=
  match builder this with
  | Some b => addCPU b >>> addRAM b >>> addStorage b
  | None => throw TypeError
  end.

Definition buildEnchancedComputer (this : ComputerDirector) : M (list Computer) :=
  match builder this with
  | Some b => addCPU b >>> addRAM b >>> addGPU b >>> addStorage b
  | None => throw TypeError
  end.

(* the build calls a client makes on a director *)
Inductive Build := Standard | Enchanced.

Definition build (this : ComputerDirector) (k : Build) : M (list Computer) :=
  match k with
  | Standard => buildStandardComputer this
  | Enchanced => buildEnchancedComputer this
  end.

Fixpoint builds (this : ComputerDirector) (ks : list Build) : M (list Computer) :=
  match ks with
  | [] => ret undefined
  | k :: ks' => build this k >>> builds this ks'
  end.

(* the computer a builder of a class makes when every part is added *)
Definition full (k : BuilderClass) : Computer :=
  match k with
  | OfficeComputerBuilder =>
      mkComputer "Intel Core i5" "16GB" "Integrated Graphics" "512GB SSD"
  | GamingComputerBuilder =>
      mkComputer "AMD Ryzen 7" "32GB" "NVIDIA RTX 3080" "1TB SSD + 2TB HDD"
  end.

Definition has_enchanced (ks : list Build) : bool :=
  existsb (fun k => match k with Enchanced => true | Standard => false end) ks.

End Builder.

(** ** Singleton: the configuration manager *)

Module Singleton.

Inductive Setting :=
| text (s : string)
| num (z : Z).

(* an instance: its settings, the keys in the order of the object literal *)
Record ConfigurationManager := mkConfigurationManager {
  settings : list (string * Setting)
}.

Definition loadConfigurations : list (string * Setting) :=
  [("theme", text "dark"); ("apiUrl", text "https://api.example.com");
   ("timeout", num 5000)].

(* the private constructor *)
Definition new_ConfigurationManager : ConfigurationManager :=
  mkConfigurationManager loadConfigurations.

(* the static field [instance] (a location, or not set yet) and the
   instances constructed so far *)
Record State := mkState {
  instance : option nat;
  instances : list ConfigurationManager
}.

Definition initial : State := mkState None [].

Definition getInstance (s : State) : nat * State :=
  match instance s with
  | None =>
      let l := length (instances s) in
      (l, mkState (Some l) (instances s ++ [new_ConfigurationManager]))
  | Some l => (l, s)
  end.

(* n calls of getInstance(): what each returned, and the state left *)
Fixpoint getInstances (n : nat) (s : State) : list nat * State :=
  match n with
  | 0 => ([], s)
  | S n' =>
      let '(l, s') := getInstance s in
      let '(ls, s'') := getInstances n' s' in
      (l :: ls, s'')
  end.

End Singleton.

(** ** Command queue: commands run in a batch *)

Module Batch.

(* the receivers have no fields *)
Inductive Light := new_Light.
Inductive Fan := new_Fan.
Inductive MusicPlayer := new_MusicPlayer.

Inductive Command :=
| TurnOnLight (light : Light)
| TurnOffLight (light : Light)
| TurnOnFan (fan : Fan)
| SetFanSpeed (fan : Fan) (speed : Z)
| PlayMusic (musicPlayer : MusicPlayer)
| SetVolume (musicPlayer : MusicPlayer) (volume : Z).

(* command.execute(): the line the receiver prints *)
Definition execute (command : Command) (console : list string) : list string :=
  console ++ [match command with
              | TurnOnLight _ => "Light is ON"
              | TurnOffLight _ => "Light is OFF"
              | TurnOnFan _ => "Fan is ON"
              | SetFanSpeed _ speed => "Fan speed set to " +:+ pretty speed
              | PlayMusic _ => "MusicPlayer is playing"
              | SetVolume _ volume => "MusicPlayer volume set to " +:+ pretty volume
              end].

Record RemoteControl := mkRemoteControl {
  commands : list Command    (* private commands: Command[] = [] *)
}.

Definition new_RemoteControl : RemoteControl := mkRemoteControl [].

Definition addCommand (command : Command) (this : RemoteControl) : RemoteControl :=
  mkRemoteControl (commands this ++ [command]).

Definition header : string := "RemoteControl: Executing commands...".

Definition executeCommands (s : RemoteControl * list string) : RemoteControl * list string :=
  let console := snd s ++ [header] in
  let console := foldl (fun console command => execute command console)
                   console (commands (fst s)) in
  (mkRemoteControl [], console).

(* what a client does with the remote control *)
Inductive Op :=
| AddCommand (command : Command)
| ExecuteCommands.

Definition step (s : RemoteControl * list string) (op : Op) : RemoteControl * list string :=
  match op with
  | AddCommand command => (addCommand command (fst s), snd s)
  | ExecuteCommands => executeCommands s
  end.

Definition run (ops : list Op) (s : RemoteControl * list string) : RemoteControl * list string :=
  foldl step s ops.

(* the commands a client added, in the order of the calls *)
Definition added (ops : list Op) : list Command :=
  flat_map (fun op => match op with
                      | AddCommand command => [command]
                      | ExecuteCommands => []
                      end) ops.

(* the line a command prints *)
Definition line (command : Command) : list string := execute command [].

(* a line other than the header *)
Definition not_header (l : string) : bool := negb (String.eqb l header).

End Batch.

(** ** Prototype: characters cloned from templates

    Objects have identity and are mutated in place, so they live in a
    store, one list per type of object, a location being an index.  A
    field of a character is an own property or is absent ([None]):
    reading it follows the chain of prototypes, which is what
    [Object.create(this)] sets up. *)

Module Prototype.

Record Character := mkCharacter {
  proto : option nat;        (* the object it was created from, or Character.prototype *)
  name : option string;
  health : option Z;
  attackPower : option Z;
  speed : option Z;
  inventory : option nat;    (* an array of strings *)
  skills : option nat;       (* a record of numbers *)
  team : option nat          (* a team object *)
}.

Record Team := mkTeam {
  is_Team : bool;            (* made by [new Team], with its methods, or an object literal *)
  team_name : string;
  members : nat              (* an array of characters *)
}.

Record Heap := mkHeap {
  characters : list Character;
  inventories : list (list string);
  records : list (list (string * Z));
  teams : list Team;
  member_arrays : list (list nat)
}.

Definition with_characters (cs : list Character) (h : Heap) : Heap :=
  mkHeap cs (inventories h) (records h) (teams h) (member_arrays h).

Definition with_inventories (xs : list (list string)) (h : Heap) : Heap :=
  mkHeap (characters h) xs (records h) (teams h) (member_arrays h).

Definition with_records (xs : list (list (string * Z))) (h : Heap) : Heap :=
  mkHeap (characters h) (inventories h) xs (teams h) (member_arrays h).

Definition with_teams (xs : list Team) (h : Heap) : Heap :=
  mkHeap (characters h) (inventories h) (records h) xs (member_arrays h).

Definition with_member_arrays (xs : list (list nat)) (h : Heap) : Heap :=
  mkHeap (characters h) (inventories h) (records h) (teams h) xs.

(* o.f: the own property, or else that of the prototype, and so on *)
Fixpoint get {A} (f : Character -> option A) (fuel : nat) (h : Heap) (o : nat) : option A :=
  match fuel with
  | 0 => None
  | S n =>
      match characters h !! o with
      | Some c =>
          match f c with
          | Some v => Some v
          | None =>
              match proto c with
              | Some p => get f n h p
              | None => None
              end
          end
      | None => None
      end
  end.

(* an object is created after its prototype, so the chain of [o] has at
   most [S o] objects *)
Definition read {A} (f : Character -> option A) (h : Heap) (o : nat) : option A :=
  get f (S o) h o.

(* o.f = v for the fields that the example assigns *)
Definition set_name (v : string) (c : Character) : Character :=
  mkCharacter (proto c) (Some v) (health c) (attackPower c) (speed c)
    (inventory c) (skills c) (team c).

Definition set_health (v : Z) (c : Character) : Character :=
  mkCharacter (proto c) (name c) (Some v) (attackPower c) (speed c)
    (inventory c) (skills c) (team c).

Definition set_inventory (v : nat) (c : Character) : Character :=
  mkCharacter (proto c) (name c) (health c) (attackPower c) (speed c)
    (Some v) (skills c) (team c).

Definition set_skills (v : nat) (c : Character) : Character :=
  mkCharacter (proto c) (name c) (health c) (attackPower c) (speed c)
    (inventory c) (Some v) (team c).

Definition set_team (v : nat) (c : Character) : Character :=
  mkCharacter (proto c) (name c) (health c) (attackPower c) (speed c)
    (inventory c) (skills c) (Some v).

Definition assign (g : Character -> Character) (o : nat) (h : Heap) : Heap :=
  with_characters (alter g o (characters h)) h.

(* new Character(name, health, attackPower, speed) *)
Definition new_Character (n : string) (hp ap sp : Z) (h : Heap) : nat * Heap :=
  let inv := length (inventories h) in
  let sk := length (records h) in
  (length (characters h),
   mkHeap (characters h ++
             [mkCharacter None (Some n) (Some hp) (Some ap) (Some sp)
                (Some inv) (Some sk) None])
     (inventories h ++ [[]]) (records h ++ [[]]) (teams h) (member_arrays h)).

(* this.clone(); [None] when the call throws (the spread of an undefined
   inventory) or meets a location outside the store *)
Definition clone (this : nat) (h : Heap) : option (nat * Heap) :=
  (* const clone = Object.create(this) *)
  let clone := length (characters h) in
  let h := with_characters
             (characters h ++ [mkCharacter (Some this) None None None None None None None])
             h in
  (* clone.inventory = [...this.inventory] *)
  match read inventory h this ≫= (fun a : nat => inventories h !! a) with
  | None => None
  | Some items =>
      let inv := length (inventories h) in
      let h := assign (set_inventory inv) clone
                 (with_inventories (inventories h ++ [items]) h) in
      (* clone.skills = { ...this.skills } *)
      let props := default [] (read skills h this ≫= (fun a : nat => records h !! a)) in
      let sk := length (records h) in
      let h := assign (set_skills sk) clone
                 (with_records (records h ++ [props]) h) in
      (* if (this.team) clone.team = { ...this.team, members: ...map(...) } *)
      match read team h this with
      | None => Some (clone, h)
      | Some t =>
          match teams h !! t ≫= (fun T : Team =>
                                  pair T <$> member_arrays h !! members T) with
          | None => None
          | Some (T, ms) =>
              let ms' := map (fun member => if Nat.eqb member this then clone else member)
                           ms in
              let ma := length (member_arrays h) in
              let h := with_member_arrays (member_arrays h ++ [ms']) h in
              let t' := length (teams h) in
              let h := with_teams (teams h ++ [mkTeam false (team_name T) ma]) h in
              Some (clone, assign (set_team t') clone h)
          end
      end
  end.

(* new Team(name) *)
Definition new_Team (n : string) (h : Heap) : nat * Heap :=
  let ma := length (member_arrays h) in
  (length (teams h),
   with_teams (teams h ++ [mkTeam true n ma])
     (with_member_arrays (member_arrays h ++ [[]]) h)).

(* this.addMember(member); [None] when the call throws: an object that
   is not a Team has no such method *)
Definition addMember (member : nat) (this : nat) (h : Heap) : option Heap :=
  match teams h !! this with
  | Some T =>
      if is_Team T then
        match member_arrays h !! members T with
        | Some ms =>
            Some (assign (set_team this) member
                    (with_member_arrays
                       (<[members T := ms ++ [member]]> (member_arrays h)) h))
        | None => None
        end
      else None
  | None => None
  end.

(* o.inventory.push(item) *)
Definition push_item (item : string) (o : nat) (h : Heap) : Heap :=
  match read inventory h o with
  | Some a =>
      match inventories h !! a with
      | Some items => with_inventories (<[a := items ++ [item]]> (inventories h)) h
      | None => h
      end
  | None => h
  end.

(* what o.inventory holds *)
Definition items_of (h : Heap) (o : nat) : option (list string) :=
  read inventory h o ≫= (fun a : nat => inventories h !! a).

(* what o.team.members holds *)
Definition members_of (h : Heap) (o : nat) : option (list nat) :=
  match read team h o with
  | Some t =>
      match teams h !! t with
      | Some T => member_arrays h !! members T
      | None => None
      end
  | None => None
  end.

(* every object was created after its prototype *)
Fixpoint wf_from (o : nat) (cs : list Character) : bool :=
  match cs with
  | [] => true
  | c :: cs' =>
      match proto c with
      | Some p => Nat.ltb p o
      | None => true
      end && wf_from (S o) cs'
  end.

Definition wf (h : Heap) : bool := wf_from 0 (characters h).

(* a store to try things on: a warrior with a sword, member of a team *)
Definition empty : Heap := mkHeap [] [] [] [] [].

Definition example : Heap :=
  let '(warrior, h) := new_Character "Warrior" 100 20 10 empty in
  let h := push_item "Sword" warrior h in
  let '(t, h) := new_Team "Fantasy Heroes" h in
  default h (addMember warrior t h).

End Prototype.

(** * Properties *)

(** ** Sequencing and arrays *)

Lemma seq_normal {S} (m1 m2 : M S) s v s' :
  m1 s = (Normal v, s') -> (m1 >>> m2) s = m2 s'.
Proof. intros H. unfold seq. by rewrite H. Qed.

Lemma Array_get_Some {A} (xs : list A) (index : Z) (x : A) :
  Array_get xs index = Some x <->
  (0 <= index)%Z /\ xs !! Z.to_nat index = Some x.
Proof.
  unfold Array_get. destruct (Z.ltb_spec index 0); split.
  - discriminate.
  - intros [? _]. lia.
  - auto.
  - by intros [_ ?].
Qed.

Lemma Array_get_in_range {A} (xs : list A) (index : Z) (x : A) :
  Array_get xs index = Some x -> (0 <= index < Z.of_nat (length xs))%Z.
Proof.
  intros [H0 Hx]%Array_get_Some. apply lookup_lt_Some in Hx. lia.
Qed.

Lemma Array_get_negative {A} (xs : list A) (index : Z) :
  (index < 0)%Z -> Array_get xs index = None.
Proof. intros H. unfold Array_get. by destruct (Z.ltb_spec index 0); [|lia]. Qed.

Lemma Array_get_of_nat {A} (xs : list A) (n : nat) :
  Array_get xs (Z.of_nat n) = xs !! n.
Proof.
  unfold Array_get. destruct (Z.ltb_spec (Z.of_nat n) 0); [lia|].
  by rewrite Nat2Z.id.
Qed.

(** ** Stores without cycles *)

Lemma wf_from_lookup k σ a cs c :
  wf_from k σ = true -> σ !! a = Some cs -> c ∈ cs -> depth c <= k + a.
Proof.
  revert k a. induction σ as [|cs0 σ IH]; intros k a Hwf Ha Hc; [done|].
  simpl in Hwf. apply andb_true_iff in Hwf as [Hhd Htl].
  destruct a as [|a]; simpl in Ha.
  - injection Ha as ->. rewrite forallb_forall in Hhd.
    apply list_elem_of_In, Hhd, Nat.leb_le in Hc. lia.
  - specialize (IH (S k) a Htl Ha Hc). lia.
Qed.

Lemma wf_from_intro k σ :
  (forall a cs c, σ !! a = Some cs -> c ∈ cs -> depth c <= k + a) ->
  wf_from k σ = true.
Proof.
  revert k. induction σ as [|cs0 σ IH]; intros k H; [done|].
  simpl. apply andb_true_iff. split.
  - apply forallb_forall. intros c Hc%list_elem_of_In.
    apply Nat.leb_le. specialize (H 0 cs0 c eq_refl Hc). lia.
  - apply IH. intros a cs c Ha Hc. specialize (H (S a) cs c Ha Hc). lia.
Qed.

Lemma wf_arrays_lookup σ a cs c :
  wf_arrays σ = true -> σ !! a = Some cs -> c ∈ cs -> depth c <= a.
Proof. intros Hwf Ha Hc. exact (wf_from_lookup 0 σ a cs c Hwf Ha Hc). Qed.

Lemma wf_arrays_reverse σ a cs :
  wf_arrays σ = true -> σ !! a = Some cs ->
  wf_arrays (<[a := rev cs]> σ) = true.
Proof.
  intros Hwf Ha. apply wf_from_intro. intros b cs' c Hb Hc. simpl.
  apply list_lookup_insert_Some in Hb as [(-> & <- & _)|[Hne Hb]].
  - apply list_elem_of_In, in_rev, list_elem_of_In in Hc.
    eauto using wf_arrays_lookup.
  - eauto using wf_arrays_lookup.
Qed.

Lemma wf_arrays_literal σ cs :
  wf_arrays σ = true -> Forall (fun c => depth c <= length σ) cs ->
  wf_arrays (σ ++ [cs]) = true.
Proof.
  intros Hwf Hcs. apply wf_from_intro. intros a cs' c Ha Hc. simpl.
  apply lookup_app_Some in Ha as [Ha|[Hlen Ha]].
  - eauto using wf_arrays_lookup.
  - apply list_lookup_singleton_Some in Ha as [Ha ->].
    rewrite Forall_forall in Hcs. specialize (Hcs c Hc). lia.
Qed.

(** ** forEach as a sequence of calls *)

(* While the array under iteration keeps its elements, forEach calls the
   callback on them in index order. *)
Lemma forEach_from_runEach (f : Command -> M World) (O : loc) (cs : list Command)
    (P : World -> Prop) :
  (forall w, P w -> arrays w !! O = Some cs) ->
  (forall c w v w', c ∈ cs -> P w -> f c w = (Normal v, w') -> P w') ->
  forall n k w, P w ->
    forEach_from f O k n w = runEach f (take n (drop k cs)) w.
Proof.
  intros HO Hstep. induction n as [|n IH]; intros k w HP; [done|].
  simpl. rewrite (HO w HP). simpl.
  destruct (cs !! k) as [c|] eqn:Hk.
  - rewrite (drop_S _ _ _ Hk). simpl. unfold seq.
    destruct (f c w) as [[v|e] w'] eqn:Hf; simpl; [|reflexivity].
    apply IH. eapply Hstep; eauto. by eapply list_elem_of_lookup_2.
  - rewrite IH by done. apply lookup_ge_None in Hk.
    rewrite !drop_ge by lia. by rewrite !take_nil.
Qed.

Lemma runEach_total (f : Command -> M World) (cs : list Command) (P : World -> Prop) :
  (forall c w, c ∈ cs -> P w -> exists w', f c w = (Normal undefined, w') /\ P w') ->
  forall w, P w -> exists w', runEach f cs w = (Normal undefined, w') /\ P w'.
Proof.
  induction cs as [|c cs IH]; intros Hf w HP.
  - by exists w.
  - destruct (Hf c w) as (w1 & Hc & HP1); [by left|done|].
    destruct (IH (fun c' w' Hc' => Hf c' w' (list_elem_of_further _ _ _ Hc')) w1 HP1)
      as (w2 & Hcs & HP2).
    exists w2. split; [|done]. simpl. by rewrite (seq_normal _ _ _ _ _ Hc).
Qed.

(** ** execute() never touches an array *)

Lemma forEach_from_arrays (f : Command -> M World) (O : loc) :
  (forall c w, arrays (snd (f c w)) = arrays w) ->
  forall n k w, arrays (snd (forEach_from f O k n w)) = arrays w.
Proof.
  intros Hf. induction n as [|n IH]; intros k w; [done|].
  simpl. destruct (arrays w !! O ≫= (.!! k)) as [c|]; [|apply IH].
  unfold seq. specialize (Hf c w).
  destruct (f c w) as [[v|e] w']; simpl in *; [|done].
  by rewrite IH.
Qed.

Lemma execute_arrays fuel c w : arrays (snd (execute fuel c w)) = arrays w.
Proof.
  revert c w. induction fuel as [|n IH]; intros [l|l|t|t|a] w; try done.
  simpl. unfold MacroCommand.execute, Array_forEach.
  destruct (arrays w !! a); [|done]. by apply forEach_from_arrays.
Qed.

(* execute() of a macro command calls execute() on the members, in the
   order in which the array holds them *)
Lemma execute_macro n a cs w :
  arrays w !! a = Some cs ->
  execute (S n) (MacroCommand a) w = runEach (execute n) cs w.
Proof.
  intros Ha. simpl. unfold MacroCommand.execute, Array_forEach. rewrite Ha.
  rewrite (forEach_from_runEach (execute n) a cs (fun w' => arrays w' = arrays w)).
  - by rewrite drop_0, firstn_all.
  - intros w' ->. done.
  - intros c w1 v w' _ <- Hf. pose proof (execute_arrays n c w1) as H.
    by rewrite Hf in H.
  - done.
Qed.

Lemma execute_total fuel c w :
  wf_arrays (arrays w) = true -> depth c <= length (arrays w) -> depth c <= fuel ->
  exists w', execute fuel c w = (Normal undefined, w') /\ arrays w' = arrays w.
Proof.
  revert c w. induction fuel as [|n IH]; intros [l|l|t|t|a] w Hwf Hlen Hfuel;
    simpl in Hfuel; try lia; try (by eexists).
  simpl in Hlen. destruct (lookup_lt_is_Some_2 (arrays w) a) as [cs Ha]; [lia|].
  rewrite (execute_macro _ _ _ _ Ha).
  apply (runEach_total _ _ (fun w' => arrays w' = arrays w)); [|done].
  intros c w1 Hc Hw1.
  assert (depth c <= a) by eauto using wf_arrays_lookup.
  destruct (IH c w1) as (w2 & Hex & Hw2); rewrite ?Hw1; try done; try lia.
  exists w2. split; [done|congruence].
Qed.

(** ** undo() reverses the array of a macro command, and no other *)

Lemma undo_macro_unfold n a cs w :
  arrays w !! a = Some cs ->
  undo (S n) (MacroCommand a) w =
  forEach_from (undo n) a 0 (length cs)
    (mkWorld (<[a := rev cs]> (arrays w)) (console w)).
Proof.
  intros Ha. simpl. unfold MacroCommand.undo, seq, Array_reverse. rewrite Ha.
  unfold Array_forEach. simpl.
  rewrite list_lookup_insert_eq by eauto using lookup_lt_Some.
  by rewrite length_rev.
Qed.

(* One level of undo(): given that undo() with fuel [n] completes and
   keeps the invariant on every command it can run, undo() of a macro
   command with fuel [S n] reverses its array in place, calls undo() on
   the members in the order in which the array now holds them, and
   completes with the invariant kept. *)
Lemma undo_macro_step n :
  (forall c w,
     wf_arrays (arrays w) = true -> depth c <= length (arrays w) -> depth c <= n ->
     exists w', undo n c w = (Normal undefined, w') /\
       undo_inv (length (arrays w)) (depth c) (arrays w) w') ->
  forall a cs w,
    wf_arrays (arrays w) = true -> arrays w !! a = Some cs -> a <= n ->
    let σ1 := <[a := rev cs]> (arrays w) in
    undo (S n) (MacroCommand a) w = runEach (undo n) (rev cs) (mkWorld σ1 (console w)) /\
    exists w', undo (S n) (MacroCommand a) w = (Normal undefined, w') /\
      undo_inv (length (arrays w)) a σ1 w'.
Proof.
  intros IH a cs w Hwf Ha Hn σ1.
  assert (Hlt : a < length (arrays w)) by eauto using lookup_lt_Some.
  assert (Ha1 : σ1 !! a = Some (rev cs)) by by apply list_lookup_insert_eq.
  assert (Hstep : forall c w1, c ∈ rev cs -> undo_inv (length (arrays w)) a σ1 w1 ->
            exists w', undo n c w1 = (Normal undefined, w') /\
                       undo_inv (length (arrays w)) a σ1 w').
  { intros c w1 Hc (Hwf1 & Hlen1 & Hfr1).
    assert (depth c <= a).
    { eapply wf_arrays_lookup; [exact Hwf1| |exact Hc]. rewrite Hfr1; done. }
    destruct (IH c w1) as (w2 & Hun & Hwf2 & Hlen2 & Hfr2); try done; try lia.
    exists w2. split; [done|]. split; [done|]. split; [congruence|].
    intros b Hb. rewrite Hfr2 by lia. by apply Hfr1. }
  assert (HP1 : undo_inv (length (arrays w)) a σ1 (mkWorld σ1 (console w))).
  { split; [by apply wf_arrays_reverse|]. split; [apply length_insert|done]. }
  assert (Heq : undo (S n) (MacroCommand a) w =
                runEach (undo n) (rev cs) (mkWorld σ1 (console w))).
  { rewrite (undo_macro_unfold _ _ _ _ Ha). fold σ1.
    rewrite (forEach_from_runEach (undo n) a (rev cs)
               (undo_inv (length (arrays w)) a σ1)); [| | |exact HP1].
    - by rewrite drop_0, <- length_rev, firstn_all.
    - intros w1 (_ & _ & Hfr1). rewrite Hfr1; done.
    - intros c w1 v w' Hc HP Hun.
      destruct (Hstep c w1 Hc HP) as (w2 & Hun2 & HP2). congruence. }
  split; [exact Heq|]. rewrite Heq.
  exact (runEach_total _ _ _ Hstep _ HP1).
Qed.

(* In a store without cycles undo() completes normally, given fuel for
   the nesting of the command; it allocates nothing, keeps the store
   without cycles and leaves alone every array allocated after the one
   of the command. *)
Lemma undo_total fuel c w :
  wf_arrays (arrays w) = true -> depth c <= length (arrays w) -> depth c <= fuel ->
  exists w', undo fuel c w = (Normal undefined, w') /\
    undo_inv (length (arrays w)) (depth c) (arrays w) w'.
Proof.
  revert c w. induction fuel as [|n IH]; intros [l|l|t|t|a] w Hwf Hlen Hfuel;
    simpl in Hfuel; try lia; try (by eexists).
  simpl in Hlen. destruct (lookup_lt_is_Some_2 (arrays w) a) as [cs Ha]; [lia|].
  destruct (undo_macro_step n IH a cs w) as (_ & w' & Hun & Hwf' & Hlen' & Hfr');
    [done|done|lia|].
  exists w'. split; [done|]. split; [done|]. split; [done|].
  intros b Hb. simpl in Hb. rewrite Hfr' by lia. apply list_lookup_insert_ne. lia.
Qed.

(* undo() of a macro command reverses its array in place, then calls
   undo() on the members in the order in which the array now holds them *)
Lemma undo_macro n a cs w :
  wf_arrays (arrays w) = true -> arrays w !! a = Some cs -> a <= n ->
  undo (S n) (MacroCommand a) w =
    runEach (undo n) (rev cs) (mkWorld (<[a := rev cs]> (arrays w)) (console w)) /\
  exists w', undo (S n) (MacroCommand a) w = (Normal undefined, w') /\
    wf_arrays (arrays w') = true /\ arrays w' !! a = Some (rev cs).
Proof.
  intros Hwf Ha Hn.
  destruct (undo_macro_step n (undo_total n) a cs w Hwf Ha Hn)
    as (Heq & w' & Hun & Hwf' & _ & Hfr').
  split; [exact Heq|]. exists w'. split; [done|]. split; [done|].
  rewrite Hfr' by done. apply list_lookup_insert_eq. eauto using lookup_lt_Some.
Qed.

(** ** The invoker, call by call *)

Import RemoteControl.

Lemma Array_get_valid {A} (xs : list A) (index : Z) :
  (0 <= index < Z.of_nat (length xs))%Z -> exists x, Array_get xs index = Some x.
Proof.
  intros H. destruct (lookup_lt_is_Some_2 xs (Z.to_nat index)) as [x Hx]; [lia|].
  exists x. apply Array_get_Some. split; [lia|done].
Qed.

(* a valid index: execute() of the command there, then the undo slot *)
Lemma pressButton_valid fuel index this w command :
  Array_get (commands this) index = Some command ->
  pressButton fuel index (this, w) =
  match execute fuel command w with
  | (Normal _, w') => (Normal undefined, (mkRemoteControl (commands this) (Some command), w'))
  | (Abrupt e, w') => (Abrupt e, (this, w'))
  end.
Proof.
  intros Hget. pose proof (Array_get_in_range _ _ _ Hget) as Hr.
  unfold pressButton. rewrite Hget.
  destruct (Z.ltb_spec index (Z.of_nat (length (commands this)))); [done|lia].
Qed.

Lemma pressButton_not_found fuel index this w :
  (Z.of_nat (length (commands this)) <= index)%Z ->
  pressButton fuel index (this, w) =
  (Normal undefined, (this, mkWorld (arrays w) (console w ++ ["Command not found"]))).
Proof.
  intros H. unfold pressButton.
  destruct (Z.ltb_spec index (Z.of_nat (length (commands this)))); [lia|done].
Qed.

Lemma pressButton_negative fuel index this w :
  (index < 0)%Z -> pressButton fuel index (this, w) = (Abrupt TypeError, (this, w)).
Proof.
  intros H. unfold pressButton. rewrite (Array_get_negative _ _ H).
  destruct (Z.ltb_spec index (Z.of_nat (length (commands this)))); [done|lia].
Qed.

Lemma pressUndo_holding fuel this w command :
  undoCommand this = Some command ->
  pressUndo fuel (this, w) =
  match undo fuel command w with
  | (Normal _, w') => (Normal undefined, (mkRemoteControl (commands this) None, w'))
  | (Abrupt e, w') => (Abrupt e, (this, w'))
  end.
Proof. intros H. unfold pressUndo. by rewrite H. Qed.

Lemma pressUndo_empty fuel this w :
  undoCommand this = None ->
  pressUndo fuel (this, w) =
  (Normal undefined, (this, mkWorld (arrays w) (console w ++ ["No command to undo"]))).
Proof. intros H. unfold pressUndo. by rewrite H. Qed.

Lemma pressButton_commands fuel index s :
  commands (fst (snd (pressButton fuel index s))) = commands (fst s).
Proof.
  destruct s as [this w]. unfold pressButton.
  destruct (index <? _)%Z; [|done].
  destruct (Array_get (commands this) index); [|done].
  by destruct (execute fuel c w) as [[v|e] w'].
Qed.

Lemma pressUndo_commands fuel s :
  commands (fst (snd (pressUndo fuel s))) = commands (fst s).
Proof.
  destruct s as [this w]. unfold pressUndo.
  destruct (undoCommand this) as [c|]; [|done].
  by destruct (undo fuel c w) as [[v|e] w'].
Qed.

Lemma setCommands_commands cs this :
  setCommands cs this =
  (Normal undefined, mkRemoteControl (commands this ++ cs) (undoCommand this)).
Proof.
  revert this. induction cs as [|c cs IH]; intros [cmds u]; simpl.
  - by rewrite app_nil_r.
  - unfold seq. simpl. rewrite IH. simpl. by rewrite <- app_assoc.
Qed.

(** ** The claims about invalid indices and registration *)

(** C1 (the code at the failing inputs).  pressButton with an index at or
    past the number of registered commands runs no command, prints
    "Command not found", completes normally and leaves the invoker as it
    was.  With a negative index the guard [index < this.commands.length]
    passes, [this.commands[index]] is [undefined] and the call of
    [execute] on it throws a TypeError: no command runs and the undo slot
    is unchanged, but the call does not report "Command not found", it
    raises. *)
Theorem C1_pressButton_invalid_index fuel this w :
  (forall k : nat,
     pressButton fuel (Z.of_nat (length (commands this) + k)) (this, w) =
     (Normal undefined, (this, mkWorld (arrays w) (console w ++ ["Command not found"])))) /\
  (forall p : positive,
     pressButton fuel (Z.neg p) (this, w) = (Abrupt TypeError, (this, w))).
Proof.
  split.
  - intros k. apply pressButton_not_found. lia.
  - intros p. apply pressButton_negative. lia.
Qed.

(** C5 (amended).  setCommand appends the command to the invoker's list
    and returns nothing: the call evaluates to [undefined].  The command
    is then at the index equal to the number of commands registered
    before it, so that registering c1, ..., cn on a new invoker puts them
    at the indices 0, ..., n-1 in that order. *)
Theorem C5_setCommand_appends command this (cs : list Command) :
  setCommand command this =
    (Normal undefined, mkRemoteControl (commands this ++ [command]) (undoCommand this)) /\
  Array_get (commands (snd (setCommand command this)))
    (Z.of_nat (length (commands this))) = Some command /\
  commands (snd (setCommands cs new_RemoteControl)) = cs.
Proof.
  split; [done|]. split.
  - simpl. rewrite Array_get_of_nat. by apply list_lookup_middle.
  - by rewrite setCommands_commands.
Qed.

(** C5 as stated fails: the first registration does not return the index
    0, it returns [undefined]. *)
Lemma C5_setCommand_returns_no_index :
  fst (setCommand lightOn new_RemoteControl) = Normal undefined /\
  fst (setCommand lightOn new_RemoteControl) <> Normal (number 0).
Proof. split; [reflexivity|discriminate]. Qed.

(** C9.  No sequence of pressButton and pressUndo calls, with any indices
    and whatever each call's completion, changes the invoker's list of
    commands; setCommand changes it by appending its argument. *)
Theorem C9_presses_keep_the_commands fuel (calls : list Call) (s : RemoteControl * World)
    (command : Command) :
  commands (fst (run_calls fuel calls s)) = commands (fst s) /\
  commands (snd (setCommand command (fst s))) = commands (fst s) ++ [command].
Proof.
  split; [|done]. revert s. induction calls as [|c calls IH]; intros s; [done|].
  simpl. rewrite IH. destruct c as [index|]; simpl.
  - apply pressButton_commands.
  - apply pressUndo_commands.
Qed.

(** C8.  A macro command over an empty array (one constructed from the
    empty sequence): execute() and undo() complete normally, print
    nothing and leave the world, the array included, as it was. *)
Theorem C8_empty_macro_is_a_no_op fuel a w :
  arrays w !! a = Some [] ->
  execute (S fuel) (MacroCommand a) w = (Normal undefined, w) /\
  undo (S fuel) (MacroCommand a) w = (Normal undefined, w).
Proof.
  intros Ha. split.
  - by rewrite (execute_macro _ _ _ _ Ha).
  - rewrite (undo_macro_unfold _ _ _ _ Ha).
    change (rev (@nil Command)) with (@nil Command).
    rewrite (list_insert_id _ _ _ Ha). by destruct w.
Qed.

Lemma C8_empty_macro_witness :
  let '(a, w) := array_literal [] empty_world in
  arrays w !! a = Some [] /\
  execute 1 (MacroCommand a) w = (Normal undefined, w) /\
  undo 1 (MacroCommand a) w = (Normal undefined, w).
Proof.
  simpl. split; [reflexivity|].
  apply (C8_empty_macro_is_a_no_op 0 0 (mkWorld [[]] [])). reflexivity.
Defined.

(** C7.  The same command registered twice sits at two distinct indices,
    both valid.  From any state, pressButton on either index does the
    same thing: it runs execute() of that command and, when that
    completes normally, leaves that command in the undo slot, so that the
    next pressUndo runs undo() of that command whichever index was
    pressed. *)
Theorem C7_same_command_registered_twice fuel command this w :
  let n := length (commands this) in
  let this2 := snd ((setCommand command >>> setCommand command) this) in
  Z.of_nat n <> Z.of_nat (S n) /\
  Array_get (commands this2) (Z.of_nat n) = Some command /\
  Array_get (commands this2) (Z.of_nat (S n)) = Some command /\
  pressButton fuel (Z.of_nat n) (this2, w) = pressButton fuel (Z.of_nat (S n)) (this2, w) /\
  pressButton fuel (Z.of_nat (S n)) (this2, w) =
    match execute fuel command w with
    | (Normal _, w') =>
        (Normal undefined, (mkRemoteControl (commands this2) (Some command), w'))
    | (Abrupt e, w') => (Abrupt e, (this2, w'))
    end /\
  forall w',
    pressUndo fuel (mkRemoteControl (commands this2) (Some command), w') =
    match undo fuel command w' with
    | (Normal _, w'') => (Normal undefined, (mkRemoteControl (commands this2) None, w''))
    | (Abrupt e, w'') => (Abrupt e, (mkRemoteControl (commands this2) (Some command), w''))
    end.
Proof.
  intros n this2.
  assert (H1 : Array_get (commands this2) (Z.of_nat n) = Some command).
  { rewrite Array_get_of_nat. subst this2 n. simpl.
    rewrite <- app_assoc. by apply list_lookup_middle. }
  assert (H2 : Array_get (commands this2) (Z.of_nat (S n)) = Some command).
  { rewrite Array_get_of_nat. subst this2 n. simpl.
    apply list_lookup_middle. rewrite length_app. simpl. lia. }
  split; [lia|]. split; [done|]. split; [done|].
  rewrite (pressButton_valid _ _ _ _ _ H1), (pressButton_valid _ _ _ _ _ H2).
  split; [done|]. split; [done|]. intros w'.
  exact (pressUndo_holding fuel (mkRemoteControl (commands this2) (Some command))
           w' command eq_refl).
Qed.

(** ** The client code *)

(** C6.  With LightOn, LightOff, TVOn, TVOff, Macro([LightOn, TVOn]) and
    Macro([LightOff, TVOff]) registered at the indices 0 to 5, the light
    and the TV taken to be OFF at the start, pressButton(0), ...,
    pressButton(5), pressUndo() complete normally and leave the light ON
    and the TV ON.  The same holds in the registration order of the
    client code (LightOn, TVOn, LightOff, TVOff, then the two macros). *)
Theorem C6_scenario_leaves_light_and_tv_on fuel :
  (let '(c, (_, w)) := scenario (S fuel) in
   c = Normal undefined /\
   lightState OFF (console w) = ON /\ tvState OFF (console w) = ON) /\
  (let '(c, (_, w)) := client (S fuel) in
   c = Normal undefined /\
   lightState OFF (console w) = ON /\ tvState OFF (console w) = ON).
Proof. destruct fuel; vm_compute; auto. Qed.

(** ** Macro commands *)

(** C2 (the code at the failing input).  On the macro command built from
    [lightOn, tvOn], a first undo() calls the members' undo() in the
    order tvOn, lightOn.  It has reversed the stored array in place: a
    second undo() calls them in the order lightOn, tvOn, the order of
    construction and not its reverse, and an execute() after one undo()
    calls the members' execute() in the order tvOn, lightOn.  Through the
    invoker: after the client code, whose pressUndo() has undone the
    macro command built from [lightOff, tvOff], pressButton(5) turns the
    TV off first, then the light. *)
Theorem C2_macro_order_is_not_fixed :
  let w := snd party_modes in
  arrays w !! 0 = Some [lightOn; tvOn] /\
  printed w (snd (undo 1 (MacroCommand 0) w)) = ["TV is OFF"; "Light is OFF"] /\
  (let w1 := snd (undo 1 (MacroCommand 0) w) in
   arrays w1 !! 0 = Some [tvOn; lightOn] /\
   printed w1 (snd (undo 1 (MacroCommand 0) w1)) = ["Light is OFF"; "TV is OFF"] /\
   printed w1 (snd (execute 1 (MacroCommand 0) w1)) = ["TV is ON"; "Light is ON"]) /\
  (let s := snd (client 2) in
   printed (snd s) (snd (snd (pressButton 2 5 s))) = ["TV is OFF"; "Light is OFF"]).
Proof. vm_compute. repeat split; reflexivity. Qed.

(** C10.  In a store without cycles, undo() of the macro command over an
    array that holds c1, ..., cn calls undo() on cn, ..., c1 in that
    order, completes normally and leaves the array holding cn, ..., c1.
    An execute() that follows calls execute() on cn, ..., c1 in that
    order, and an undo() that follows calls undo() on c1, ..., cn: the
    reverse of the order of the first undo(). *)
Theorem C10_undo_reverses_in_place n a cs w :
  wf_arrays (arrays w) = true -> arrays w !! a = Some cs -> a <= n ->
  undo (S n) (MacroCommand a) w =
    runEach (undo n) (rev cs) (mkWorld (<[a := rev cs]> (arrays w)) (console w)) /\
  exists w',
    undo (S n) (MacroCommand a) w = (Normal undefined, w') /\
    arrays w' !! a = Some (rev cs) /\
    execute (S n) (MacroCommand a) w' = runEach (execute n) (rev cs) w' /\
    undo (S n) (MacroCommand a) w' =
      runEach (undo n) cs (mkWorld (<[a := cs]> (arrays w')) (console w')).
Proof.
  intros Hwf Ha Hn.
  destruct (undo_macro n a cs w Hwf Ha Hn) as (Heq & w' & Hun & Hwf' & Ha').
  split; [exact Heq|]. exists w'. split; [done|]. split; [done|]. split.
  - by apply execute_macro.
  - destruct (undo_macro n a (rev cs) w' Hwf' Ha' Hn) as (Heq' & _).
    by rewrite rev_involutive in Heq'.
Qed.

Lemma C10_undo_reverses_in_place_witness :
  let w := snd party_modes in
  wf_arrays (arrays w) = true /\ arrays w !! 1 = Some [lightOff; tvOff] /\
  exists w',
    undo 2 (MacroCommand 1) w = (Normal undefined, w') /\
    arrays w' !! 1 = Some [tvOff; lightOff].
Proof.
  simpl. split; [reflexivity|]. split; [reflexivity|].
  destruct (C10_undo_reverses_in_place 1 1 [lightOff; tvOff] (snd party_modes))
    as (_ & w' & Hun & Ha & _); [reflexivity|reflexivity|lia|].
  exists w'. split; [exact Hun|exact Ha].
Defined.

(** ** What is printed *)

Lemma printed_app w w' l : console w' = console w ++ l -> printed w w' = l.
Proof. intros H. unfold printed. rewrite H. apply drop_app_length. Qed.

Lemma receiverActions_app l1 l2 :
  receiverActions (l1 ++ l2) = receiverActions l1 + receiverActions l2.
Proof. unfold receiverActions. by rewrite filter_app, length_app. Qed.

Lemma forEach_from_console (f : Command -> M World) (O : loc) :
  (forall c w, exists l, console (snd (f c w)) = console w ++ l) ->
  forall n k w, exists l, console (snd (forEach_from f O k n w)) = console w ++ l.
Proof.
  intros Hf. induction n as [|n IH]; intros k w.
  - exists []. simpl. by rewrite app_nil_r.
  - simpl. destruct (arrays w !! O ≫= (.!! k)) as [c|]; [|apply IH].
    unfold seq. destruct (Hf c w) as [l1 Hl1].
    destruct (f c w) as [[v|e] w']; simpl in *; [|by exists l1].
    destruct (IH (S k) w') as [l2 Hl2]. exists (l1 ++ l2).
    by rewrite Hl2, Hl1, app_assoc.
Qed.

(* undo() only adds lines to the console *)
Lemma undo_console fuel c w :
  exists l, console (snd (undo fuel c w)) = console w ++ l.
Proof.
  revert c w. induction fuel as [|n IH]; intros [l|l|t|t|a] w;
    try (by eexists); try (exists []; simpl; by rewrite app_nil_r).
  simpl. unfold MacroCommand.undo, seq, Array_reverse.
  destruct (arrays w !! a) as [cs|]; [|exists []; simpl; by rewrite app_nil_r].
  unfold Array_forEach. simpl.
  destruct (<[a:=rev cs]> (arrays w) !! a) as [cs'|];
    [|exists []; simpl; by rewrite app_nil_r].
  apply (forEach_from_console (undo n) a IH _ _
           (mkWorld (<[a:=rev cs]> (arrays w)) (console w))).
Qed.

(* a leaf command needs no fuel, touches no array and prints its line *)
Lemma execute_leaf fuel c w :
  is_leaf c = true ->
  execute fuel c w =
  (Normal undefined, mkWorld (arrays w) (console w ++ lines_of (execute 0 c))).
Proof. by destruct fuel, c. Qed.

Lemma undo_leaf fuel c w :
  is_leaf c = true ->
  undo fuel c w =
  (Normal undefined, mkWorld (arrays w) (console w ++ lines_of (undo 0 c))).
Proof. by destruct fuel, c. Qed.

Lemma undo_leaf_one_action c :
  is_leaf c = true -> receiverActions (lines_of (undo 0 c)) = 1.
Proof. by destruct c. Qed.

Lemma runEach_leaves (f : nat -> Command -> M World) n cs w :
  (forall c w', is_leaf c = true ->
     f n c w' = (Normal undefined, mkWorld (arrays w') (console w' ++ lines_of (f 0 c)))) ->
  forallb is_leaf cs = true ->
  runEach (f n) cs w =
  (Normal undefined, mkWorld (arrays w) (console w ++ lines_each (f 0) cs)).
Proof.
  intros Hf. revert w. induction cs as [|c cs IH]; intros w Hcs; simpl.
  - unfold ret. rewrite app_nil_r. by destruct w.
  - simpl in Hcs. apply andb_true_iff in Hcs as [Hc Hcs].
    rewrite (seq_normal _ _ _ _ _ (Hf c w Hc)), IH by done.
    simpl. by rewrite app_assoc.
Qed.

(* execute() and undo() of a leaf command or of a macro command of leaf
   commands, with what they print *)
Lemma execute_leaves fuel c cs w :
  leaves (arrays w) c = Some cs ->
  execute (S fuel) c w =
  (Normal undefined, mkWorld (arrays w) (console w ++ lines_each (execute 0) cs)).
Proof.
  destruct c as [l|l|t|t|a]; try (intros [= <-]; reflexivity).
  unfold leaves. destruct (arrays w !! a) as [cs'|] eqn:Ha; [|done].
  destruct (forallb is_leaf cs') eqn:Hcs; [|done]. intros [= <-].
  rewrite (execute_macro _ _ _ _ Ha).
  apply (runEach_leaves execute); [|done]. intros; by apply execute_leaf.
Qed.

Lemma undo_leaves fuel c cs w :
  leaves (arrays w) c = Some cs ->
  exists σ', undo (S fuel) c w =
    (Normal undefined, mkWorld σ' (console w ++ lines_each (undo 0) (rev cs))).
Proof.
  destruct c as [l|l|t|t|a]; try (intros [= <-]; by eexists).
  unfold leaves. destruct (arrays w !! a) as [cs'|] eqn:Ha; [|done].
  destruct (forallb is_leaf cs') eqn:Hcs; [|done]. intros [= <-].
  rewrite (undo_macro_unfold _ _ _ _ Ha).
  set (σ1 := <[a := rev cs']> (arrays w)). exists σ1.
  assert (Hrev : forallb is_leaf (rev cs') = true).
  { apply forallb_forall. intros c Hc%in_rev. by eapply forallb_forall in Hcs. }
  rewrite (forEach_from_runEach (undo fuel) a (rev cs') (fun w' => arrays w' = σ1)).
  - rewrite drop_0, <- length_rev, firstn_all.
    apply (runEach_leaves undo fuel (rev cs') (mkWorld σ1 (console w))); [|done].
    intros; by apply undo_leaf.
  - intros w' ->. apply list_lookup_insert_eq. eauto using lookup_lt_Some.
  - intros c w1 v w' Hc <- Hun.
    rewrite undo_leaf in Hun; [by injection Hun as _ <-|].
    eapply forallb_forall in Hrev; [done|]. by apply list_elem_of_In.
  - done.
Qed.

Lemma leaves_are_leaves σ c cs : leaves σ c = Some cs -> forallb is_leaf cs = true.
Proof.
  destruct c as [l|l|t|t|a]; try (by intros [= <-]).
  unfold leaves. destruct (σ !! a) as [cs'|]; [|done].
  destruct (forallb is_leaf cs') eqn:H; [|done]. by intros [= <-].
Qed.

Lemma receiverActions_lines_each cs :
  forallb is_leaf cs = true ->
  receiverActions (lines_each (undo 0) cs) = length cs.
Proof.
  induction cs as [|c cs IH]; intros Hcs; [done|].
  simpl in Hcs. apply andb_true_iff in Hcs as [Hc Hcs].
  change (lines_each (undo 0) (c :: cs))
    with (lines_of (undo 0 c) ++ lines_each (undo 0) cs).
  rewrite receiverActions_app, IH, undo_leaf_one_action by done. done.
Qed.

(** ** The undo slot *)

(** C3 (amended).  The undo slot is Empty on a new invoker.  pressButton
    with an index that holds a command runs that command's execute() and
    leaves the slot Holding that command, whatever it held.  pressUndo
    with the slot Holding a command runs that command's undo() and
    leaves the slot Empty; with the slot Empty it runs nothing and prints
    "No command to undo".  Hence two pressUndo calls in a row, from a
    slot Holding a command, run the receiver actions of one undo() of
    that command and no other: one per leaf command that the command
    runs, so exactly one when it is a leaf command, and one per member
    when it is a macro command of leaf commands.  Completion is for a
    store without cycles and fuel for the nesting of the command. *)
Theorem C3_undo_slot_state_machine fuel this w :
  slot new_RemoteControl = Empty /\
  (forall index cmd,
     Array_get (commands this) index = Some cmd ->
     wf_arrays (arrays w) = true -> depth cmd <= length (arrays w) -> depth cmd <= fuel ->
     exists this' w',
       execute fuel cmd w = (Normal undefined, w') /\
       pressButton fuel index (this, w) = (Normal undefined, (this', w')) /\
       slot this' = Holding cmd /\ commands this' = commands this) /\
  (forall cmd,
     slot this = Holding cmd ->
     wf_arrays (arrays w) = true -> depth cmd <= length (arrays w) -> depth cmd <= fuel ->
     exists this' w',
       undo fuel cmd w = (Normal undefined, w') /\
       pressUndo fuel (this, w) = (Normal undefined, (this', w')) /\
       slot this' = Empty /\ commands this' = commands this /\
       let w'' := mkWorld (arrays w') (console w' ++ ["No command to undo"]) in
       (pressUndo fuel >>> pressUndo fuel) (this, w) = (Normal undefined, (this', w'')) /\
       receiverActions (printed w w'') = receiverActions (printed w w') /\
       (forall cs, leaves (arrays w) cmd = Some cs ->
          receiverActions (printed w w'') = length cs)) /\
  (slot this = Empty ->
     let w' := mkWorld (arrays w) (console w ++ ["No command to undo"]) in
     pressUndo fuel (this, w) = (Normal undefined, (this, w')) /\
     receiverActions (printed w w') = 0).
Proof.
  split; [done|]. split; [|split].
  - intros index cmd Hget Hwf Hlen Hfuel.
    destruct (execute_total fuel cmd w Hwf Hlen Hfuel) as (w' & Hex & _).
    exists (mkRemoteControl (commands this) (Some cmd)), w'.
    rewrite (pressButton_valid _ _ _ _ _ Hget), Hex. done.
  - intros cmd Hslot Hwf Hlen Hfuel.
    assert (Hu : undoCommand this = Some cmd).
    { unfold slot in Hslot. destruct (undoCommand this); congruence. }
    destruct (undo_total fuel cmd w Hwf Hlen Hfuel) as (w' & Hun & _).
    destruct (undo_console fuel cmd w) as [l Hl]. rewrite Hun in Hl. simpl in Hl.
    exists (mkRemoteControl (commands this) None), w'.
    assert (Hp : pressUndo fuel (this, w) =
                 (Normal undefined, (mkRemoteControl (commands this) None, w'))).
    { by rewrite (pressUndo_holding _ _ _ _ Hu), Hun. }
    split; [done|]. split; [done|]. split; [done|]. split; [done|]. cbv zeta.
    rewrite (printed_app w w' l Hl).
    rewrite (printed_app w _ (l ++ ["No command to undo"]))
      by (simpl; by rewrite Hl, app_assoc).
    rewrite receiverActions_app, Nat.add_0_r.
    split; [|split; [done|]].
    + by rewrite (seq_normal _ _ _ _ _ Hp).
    + intros cs Hcs. pose proof (leaves_are_leaves _ _ _ Hcs) as Hleaf.
      assert (Hl' : l = lines_each (undo 0) (rev cs)).
      { destruct fuel as [|n].
        - destruct cmd as [x|x|x|x|a]; simpl in Hfuel; try lia;
            injection Hcs as <-; injection Hun as <-; simpl in Hl;
            by apply app_inv_head in Hl as <-.
        - destruct (undo_leaves n cmd cs w Hcs) as [σ' Hun'].
          rewrite Hun in Hun'. injection Hun' as ->. simpl in Hl.
          by apply app_inv_head in Hl as <-. }
      rewrite Hl', receiverActions_lines_each, length_rev; [done|].
      apply forallb_forall. intros c Hc%in_rev. by eapply forallb_forall in Hleaf.
  - intros Hslot.
    assert (Hu : undoCommand this = None).
    { unfold slot in Hslot. destruct (undoCommand this); congruence. }
    cbv zeta. split; [by apply pressUndo_empty|].
    by rewrite (printed_app _ _ ["No command to undo"]).
Qed.

Lemma C3_undo_slot_state_machine_witness :
  let w := snd party_modes in
  let registered := [lightOn; partyModeOff] in
  (exists this' w',
     pressButton 2 1 (mkRemoteControl registered (Some lightOn), w) =
       (Normal undefined, (this', w')) /\
     slot this' = Holding partyModeOff) /\
  (exists this' w',
     pressUndo 2 (mkRemoteControl registered (Some partyModeOff), w) =
       (Normal undefined, (this', w')) /\
     slot this' = Empty) /\
  pressUndo 2 (mkRemoteControl registered None, w) =
    (Normal undefined,
     (mkRemoteControl registered None,
      mkWorld (arrays w) (console w ++ ["No command to undo"]))).
Proof.
  intros w registered. split; [|split].
  - destruct (C3_undo_slot_state_machine 2 (mkRemoteControl registered (Some lightOn)) w)
      as (_ & Hpress & _ & _).
    destruct (Hpress 1%Z partyModeOff) as (this' & w' & _ & Hp & Hs & _);
      [reflexivity|reflexivity|simpl; lia|simpl; lia|].
    exists this', w'. split; [exact Hp|exact Hs].
  - destruct (C3_undo_slot_state_machine 2 (mkRemoteControl registered (Some partyModeOff)) w)
      as (_ & _ & Hundo & _).
    destruct (Hundo partyModeOff) as (this' & w' & _ & Hp & Hs & _);
      [reflexivity|reflexivity|simpl; lia|simpl; lia|].
    exists this', w'. split; [exact Hp|exact Hs].
  - destruct (C3_undo_slot_state_machine 2 (mkRemoteControl registered None) w)
      as (_ & _ & _ & Hempty).
    destruct (Hempty eq_refl) as (Hp & _). exact Hp.
Defined.

(** C3 as stated fails: with the slot Holding the macro command over
    [lightOff, tvOff], as pressButton leaves it, two pressUndo calls in a
    row run two receiver actions (TV on, light on), not exactly one; from
    the Empty slot of a new invoker they run none. *)
Lemma C3_two_undos_of_a_macro_run_two_actions :
  let remote := snd (setCommand partyModeOff new_RemoteControl) in
  let s := snd (pressButton 2 0 (remote, snd party_modes)) in
  let s' := snd ((pressUndo 2 >>> pressUndo 2) s) in
  let s0 := (new_RemoteControl, empty_world) in
  let s0' := snd ((pressUndo 2 >>> pressUndo 2) s0) in
  slot (fst s) = Holding partyModeOff /\
  printed (snd s) (snd s') = ["TV is ON"; "Light is ON"; "No command to undo"] /\
  receiverActions (printed (snd s) (snd s')) = 2 /\
  receiverActions (printed (snd s) (snd s')) <> 1 /\
  receiverActions (printed (snd s0) (snd s0')) = 0.
Proof. vm_compute. repeat split; auto; discriminate. Qed.

(** ** execute() then undo() *)

Lemma lines_each_cons f c cs : lines_each f (c :: cs) = lines_of (f c) ++ lines_each f cs.
Proof. reflexivity. Qed.

Lemma lines_each_app f cs1 cs2 :
  lines_each f (cs1 ++ cs2) = lines_each f cs1 ++ lines_each f cs2.
Proof. apply flat_map_app. Qed.

Section ExecuteThenUndo.

(* a receiver: how a line changes what is observed of it, and the state
   in which a leaf command's execute() leaves it *)
Variable observe : Power -> string -> Power.
Variable target : Command -> option Power.

Hypothesis observe_execute : forall c s,
  is_leaf c = true ->
  foldl observe s (lines_of (execute 0 c)) = default s (target c).

Hypothesis observe_undo : forall c s,
  is_leaf c = true ->
  foldl observe s (lines_of (undo 0 c)) = default s (opposite <$> target c).

(* After c1, ..., cn are executed in this order and undone in the
   reverse order, the receiver is in the state opposite to the one the
   first command that acts on it sets. *)
Lemma observe_execute_then_undo cs s :
  forallb is_leaf cs = true ->
  foldl observe s (lines_each (execute 0) cs ++ lines_each (undo 0) (rev cs)) =
  match first_target target cs with
  | Some p => opposite p
  | None => s
  end.
Proof.
  revert s. induction cs as [|c cs IH]; intros s Hcs; [done|].
  simpl in Hcs. apply andb_true_iff in Hcs as [Hc Hcs].
  simpl rev. rewrite lines_each_app, !lines_each_cons. simpl (lines_each _ []).
  rewrite app_nil_r, <- app_assoc, foldl_app, app_assoc, foldl_app.
  rewrite IH, observe_execute, observe_undo by done.
  simpl. destruct (target c) as [p|]; simpl; [done|].
  by destruct (first_target target cs).
Qed.

End ExecuteThenUndo.

Lemma lightState_execute_then_undo cs s :
  forallb is_leaf cs = true ->
  lightState s (lines_each (execute 0) cs ++ lines_each (undo 0) (rev cs)) =
  match first_target light_target cs with
  | Some p => opposite p
  | None => s
  end.
Proof.
  apply (observe_execute_then_undo Light_line light_target);
    intros [l|l|t|t|a] s' Hc; done.
Qed.

Lemma tvState_execute_then_undo cs s :
  forallb is_leaf cs = true ->
  tvState s (lines_each (execute 0) cs ++ lines_each (undo 0) (rev cs)) =
  match first_target tv_target cs with
  | Some p => opposite p
  | None => s
  end.
Proof.
  apply (observe_execute_then_undo TV_line tv_target);
    intros [l|l|t|t|a] s' Hc; done.
Qed.

(** C4 (amended).  For an index that holds a leaf command or a macro
    command of leaf commands: when every receiver the command acts on
    is, just before the dispatch, in the state opposite to the one the
    command's first action on it sets (the light OFF before LightOn, ON
    before LightOff, the same for the TV), pressButton on that index
    followed at once by pressUndo complete normally and leave the light
    and the TV in the states they had just before the dispatch. *)
Theorem C4_dispatch_then_undo_restores fuel index this w cmd cs initial_light initial_tv :
  Array_get (commands this) index = Some cmd ->
  leaves (arrays w) cmd = Some cs ->
  (forall p, first_target light_target cs = Some p ->
     lightState initial_light (console w) = opposite p) ->
  (forall p, first_target tv_target cs = Some p ->
     tvState initial_tv (console w) = opposite p) ->
  exists s1 s2,
    pressButton (S fuel) index (this, w) = (Normal undefined, s1) /\
    pressUndo (S fuel) s1 = (Normal undefined, s2) /\
    lightState initial_light (console (snd s2)) = lightState initial_light (console w) /\
    tvState initial_tv (console (snd s2)) = tvState initial_tv (console w).
Proof.
  intros Hget Hcs Hlight Htv.
  pose proof (leaves_are_leaves _ _ _ Hcs) as Hleaf.
  set (w1 := mkWorld (arrays w) (console w ++ lines_each (execute 0) cs)).
  destruct (undo_leaves fuel cmd cs w1 Hcs) as [σ' Hun].
  exists (mkRemoteControl (commands this) (Some cmd), w1).
  eexists. split; [|split].
  - by rewrite (pressButton_valid _ _ _ _ _ Hget), (execute_leaves _ _ _ _ Hcs).
  - by rewrite (pressUndo_holding _ (mkRemoteControl (commands this) (Some cmd))
                 w1 cmd eq_refl), Hun.
  - simpl. unfold lightState in *. split.
    + rewrite <- app_assoc, foldl_app.
      rewrite (lightState_execute_then_undo cs _ Hleaf).
      destruct (first_target light_target cs) as [p|]; [|done].
      symmetry. by apply Hlight.
    + unfold tvState in *. rewrite <- app_assoc, foldl_app.
      rewrite (tvState_execute_then_undo cs _ Hleaf).
      destruct (first_target tv_target cs) as [p|]; [|done].
      symmetry. by apply Htv.
Qed.

Lemma C4_dispatch_then_undo_restores_witness :
  let '(remote, w) := snd (scenario 1) in
  Array_get (commands remote) 5 = Some partyModeOff /\
  lightState OFF (console w) = ON /\ tvState OFF (console w) = ON /\
  exists s1 s2,
    pressButton 1 5 (remote, w) = (Normal undefined, s1) /\
    pressUndo 1 s1 = (Normal undefined, s2) /\
    lightState OFF (console (snd s2)) = ON /\
    tvState OFF (console (snd s2)) = ON.
Proof.
  simpl. split; [reflexivity|]. split; [reflexivity|]. split; [reflexivity|].
  apply (C4_dispatch_then_undo_restores 0 5
           (fst (snd (scenario 1))) (snd (snd (scenario 1)))
           partyModeOff [tvOff; lightOff] OFF OFF).
  - reflexivity.
  - reflexivity.
  - intros p [= <-]. reflexivity.
  - intros p [= <-]. reflexivity.
Defined.

(** C4 as stated fails: with the light ON (pressButton(0) on LightOn has
    just run), pressButton(0) followed by pressUndo leaves the light OFF,
    not in the state it had just before the dispatch. *)
Lemma C4_light_already_on_is_left_off :
  let remote := snd (setCommand lightOn new_RemoteControl) in
  let s0 := snd (pressButton 1 0 (remote, empty_world)) in
  let s1 := snd (pressButton 1 0 s0) in
  let s2 := snd (pressUndo 1 s1) in
  Array_get (commands (fst s0)) 0 = Some lightOn /\
  fst (pressButton 1 0 s0) = Normal undefined /\
  fst (pressUndo 1 s1) = Normal undefined /\
  lightState OFF (console (snd s0)) = ON /\
  lightState OFF (console (snd s2)) = OFF /\
  lightState OFF (console (snd s2)) <> lightState OFF (console (snd s0)).
Proof. vm_compute. repeat split; auto; discriminate. Qed.

(** * Further properties of the engine *)

(** ** What execute() and undo() leave alone *)

Global Instance same_or_reversed_refl : Reflexive same_or_reversed.
Proof. intros cs. by left. Qed.

Global Instance same_or_reversed_trans : Transitive same_or_reversed.
Proof.
  intros cs1 cs2 cs3 [->| ->] [->| ->]; unfold same_or_reversed;
    rewrite ?rev_involutive; auto.
Qed.

Lemma same_or_reversed_elem_of cs cs' c :
  same_or_reversed cs cs' -> c ∈ cs' -> c ∈ cs.
Proof.
  intros [->| ->] Hc; [done|]. by apply list_elem_of_In, in_rev, list_elem_of_In in Hc.
Qed.

Lemma Forall2_same_or_reversed_refl (σ : list (list Command)) :
  Forall2 same_or_reversed σ σ.
Proof. apply Forall2_same_length_lookup_2; [done|]. intros i x y -> [= ->]. by left. Qed.

Lemma Forall2_same_or_reversed_trans (σ1 σ2 σ3 : list (list Command)) :
  Forall2 same_or_reversed σ1 σ2 -> Forall2 same_or_reversed σ2 σ3 ->
  Forall2 same_or_reversed σ1 σ3.
Proof.
  intros H12 H23. eapply Forall2_trans; [|exact H12|exact H23].
  intros x y z Hxy Hyz. by etrans.
Qed.

Lemma Forall2_same_or_reversed_insert (σ : list (list Command)) a cs :
  σ !! a = Some cs -> Forall2 same_or_reversed σ (<[a := rev cs]> σ).
Proof.
  intros Ha. apply Forall2_same_length_lookup_2; [by rewrite length_insert|].
  intros i x y Hx Hy. destruct (decide (i = a)) as [->|Hne].
  - rewrite list_lookup_insert_eq in Hy by eauto using lookup_lt_Some.
    right. congruence.
  - rewrite list_lookup_insert_ne in Hy by done. left. congruence.
Qed.

Lemma forEach_from_same_or_reversed (f : Command -> M World) (O : loc) :
  (forall c w, Forall2 same_or_reversed (arrays w) (arrays (snd (f c w)))) ->
  forall n k w, Forall2 same_or_reversed (arrays w) (arrays (snd (forEach_from f O k n w))).
Proof.
  intros Hf. induction n as [|n IH]; intros k w.
  - apply Forall2_same_or_reversed_refl.
  - simpl. destruct (arrays w !! O ≫= (.!! k)) as [c|]; [|apply IH].
    unfold seq. specialize (Hf c w).
    destruct (f c w) as [[v|e] w']; simpl in *; [|done].
    eapply Forall2_same_or_reversed_trans; [exact Hf|apply IH].
Qed.

Lemma undo_same_or_reversed fuel c w :
  Forall2 same_or_reversed (arrays w) (arrays (snd (undo fuel c w))).
Proof.
  revert c w. induction fuel as [|n IH]; intros [l|l|t|t|a] w;
    try apply Forall2_same_or_reversed_refl.
  simpl. unfold MacroCommand.undo, seq, Array_reverse.
  destruct (arrays w !! a) as [cs|] eqn:Ha; [|apply Forall2_same_or_reversed_refl].
  eapply Forall2_same_or_reversed_trans;
    [exact (Forall2_same_or_reversed_insert _ _ _ Ha)|].
  unfold Array_forEach. simpl.
  destruct (<[a:=rev cs]> (arrays w) !! a) as [cs'|];
    [|apply Forall2_same_or_reversed_refl].
  apply (forEach_from_same_or_reversed (undo n) a IH _ _
           (mkWorld (<[a:=rev cs]> (arrays w)) (console w))).
Qed.

Lemma wf_arrays_same_or_reversed σ σ' :
  wf_arrays σ = true -> Forall2 same_or_reversed σ σ' -> wf_arrays σ' = true.
Proof.
  intros Hwf HR. apply wf_from_intro. intros a cs' c Ha Hc. simpl.
  destruct (Forall2_lookup_r _ _ _ _ _ HR Ha) as (cs & Hcs & Hrel).
  eapply wf_arrays_lookup; [exact Hwf|exact Hcs|].
  eauto using same_or_reversed_elem_of.
Qed.

(** X1.  execute() never reorders: with any fuel and whatever its
    completion, execute() of any command leaves every array of the store
    as it was, and so does pressButton with any index. *)
Theorem X1_execute_keeps_every_array fuel command index this w :
  arrays (snd (execute fuel command w)) = arrays w /\
  arrays (snd (snd (pressButton fuel index (this, w)))) = arrays w.
Proof.
  split; [apply execute_arrays|]. unfold pressButton.
  destruct (index <? _)%Z; [|done].
  destruct (Array_get (commands this) index) as [c|]; [|done].
  pose proof (execute_arrays fuel c w) as H.
  by destruct (execute fuel c w) as [[v|e] w'].
Qed.

(** X2.  undo() never adds, drops or replaces anything: with any fuel and
    whatever its completion, undo() of any command leaves the store with
    the same number of arrays, each one what it was or its reverse. *)
Theorem X2_undo_only_reverses fuel command w :
  Forall2 same_or_reversed (arrays w) (arrays (snd (undo fuel command w))).
Proof. apply undo_same_or_reversed. Qed.

(** ** Invariants of the invoker over whole runs *)

Lemma call_same_or_reversed fuel c s :
  Forall2 same_or_reversed (arrays (snd s)) (arrays (snd (snd (call fuel c s)))).
Proof.
  destruct s as [this w], c as [index|]; simpl.
  - unfold pressButton. destruct (index <? _)%Z;
      [|apply Forall2_same_or_reversed_refl].
    destruct (Array_get (commands this) index) as [c|];
      [|apply Forall2_same_or_reversed_refl].
    pose proof (execute_arrays fuel c w) as H.
    destruct (execute fuel c w) as [[v|e] w']; simpl in *; rewrite H;
      apply Forall2_same_or_reversed_refl.
  - unfold pressUndo. destruct (undoCommand this) as [c|];
      [|apply Forall2_same_or_reversed_refl].
    pose proof (undo_same_or_reversed fuel c w) as H.
    by destruct (undo fuel c w) as [[v|e] w'].
Qed.

Lemma run_calls_same_or_reversed fuel calls s :
  Forall2 same_or_reversed (arrays (snd s)) (arrays (snd (run_calls fuel calls s))).
Proof.
  revert s. induction calls as [|c calls IH]; intros s.
  - apply Forall2_same_or_reversed_refl.
  - simpl. eapply Forall2_same_or_reversed_trans;
      [apply (call_same_or_reversed fuel c s)|apply IH].
Qed.

(** X3.  From a store without cycles, no sequence of pressButton and
    pressUndo calls, with any indices and any fuel and whatever each
    call's completion, leaves a store with a cycle or with more or fewer
    arrays: each array is afterwards what it was or its reverse. *)
Theorem X3_presses_keep_the_store_without_cycles fuel calls s :
  wf_arrays (arrays (snd s)) = true ->
  wf_arrays (arrays (snd (run_calls fuel calls s))) = true /\
  length (arrays (snd (run_calls fuel calls s))) = length (arrays (snd s)) /\
  Forall2 same_or_reversed (arrays (snd s)) (arrays (snd (run_calls fuel calls s))).
Proof.
  intros Hwf. pose proof (run_calls_same_or_reversed fuel calls s) as HR.
  split; [by eapply wf_arrays_same_or_reversed|].
  split; [symmetry; by eapply Forall2_length|done].
Qed.

Lemma X3_presses_keep_the_store_without_cycles_witness :
  let s := (mkRemoteControl [partyModeOff] None, snd party_modes) in
  let s' := run_calls 2 [PressButton 0; PressUndo; PressButton 7] s in
  wf_arrays (arrays (snd s)) = true /\
  wf_arrays (arrays (snd s')) = true /\
  length (arrays (snd s')) = 2.
Proof.
  intros s s'. split; [reflexivity|].
  destruct (X3_presses_keep_the_store_without_cycles 2
              [PressButton 0; PressUndo; PressButton 7] s) as (Hwf & Hlen & _);
    [reflexivity|].
  split; [exact Hwf|exact Hlen].
Defined.

(* execute() only adds lines to the console *)
Lemma execute_console fuel c w :
  exists l, console (snd (execute fuel c w)) = console w ++ l.
Proof.
  revert c w. induction fuel as [|n IH]; intros [l|l|t|t|a] w;
    try (by eexists); try (exists []; simpl; by rewrite app_nil_r).
  simpl. unfold MacroCommand.execute, Array_forEach.
  destruct (arrays w !! a) as [cs|]; [|exists []; simpl; by rewrite app_nil_r].
  by apply forEach_from_console.
Qed.

Lemma act_console fuel a s :
  exists l, console (snd (snd (act fuel a s))) = console (snd s) ++ l.
Proof.
  destruct s as [this w], a as [command|[index|]]; simpl.
  - exists []. by rewrite app_nil_r.
  - unfold pressButton. destruct (index <? _)%Z; [|by eexists].
    destruct (Array_get (commands this) index) as [c|];
      [|exists []; simpl; by rewrite app_nil_r].
    destruct (execute_console fuel c w) as [l Hl].
    destruct (execute fuel c w) as [[v|e] w']; by exists l.
  - unfold pressUndo. destruct (undoCommand this) as [c|]; [|by eexists].
    destruct (undo_console fuel c w) as [l Hl].
    destruct (undo fuel c w) as [[v|e] w']; by exists l.
Qed.

(** X4.  The command in the undo slot is always a registered one: after
    any sequence of setCommand, pressButton and pressUndo calls on a new
    invoker, in any world, the undo slot is empty or holds a command of
    the invoker's list. *)
Theorem X4_held_command_is_registered fuel actions w :
  match undoCommand (fst (run_actions fuel actions (new_RemoteControl, w))) with
  | Some cmd => cmd ∈ commands (fst (run_actions fuel actions (new_RemoteControl, w)))
  | None => True
  end.
Proof.
  assert (Hgen : forall s,
            (forall cmd, undoCommand (fst s) = Some cmd -> cmd ∈ commands (fst s)) ->
            forall cmd, undoCommand (fst (run_actions fuel actions s)) = Some cmd ->
                        cmd ∈ commands (fst (run_actions fuel actions s))).
  { induction actions as [|a actions IH]; intros s Hs; [done|].
    simpl. apply IH. clear IH. destruct s as [this w0], a as [command|[index|]]; simpl.
    - intros cmd Hcmd. apply elem_of_app. left. by apply Hs.
    - unfold pressButton. destruct (index <? _)%Z; [|exact Hs].
      destruct (Array_get (commands this) index) as [c|] eqn:Hget; [|exact Hs].
      destruct (execute fuel c w0) as [[v|e] w']; simpl; [|exact Hs].
      intros cmd [= <-]. apply Array_get_Some in Hget as [_ Hget].
      by eapply list_elem_of_lookup_2.
    - unfold pressUndo. destruct (undoCommand this) as [c|] eqn:Hu; [|exact Hs].
      destruct (undo fuel c w0) as [[v|e] w']; simpl; [done|exact Hs]. }
  destruct (undoCommand _) as [cmd|] eqn:Hu; [|done].
  by apply (Hgen (new_RemoteControl, w)).
Qed.

(** X5.  Nothing printed is ever taken back: over any sequence of
    setCommand, pressButton and pressUndo calls, with any fuel and
    whatever each call's completion, the console only grows at its
    end. *)
Theorem X5_the_console_only_grows fuel actions s :
  exists l, console (snd (run_actions fuel actions s)) = console (snd s) ++ l.
Proof.
  revert s. induction actions as [|a actions IH]; intros s.
  - exists []. simpl. by rewrite app_nil_r.
  - simpl. destruct (IH (snd (act fuel a s))) as [l2 Hl2].
    destruct (act_console fuel a s) as [l1 Hl1].
    exists (l1 ++ l2). by rewrite Hl2, Hl1, app_assoc.
Qed.

(** ** Runs that never throw, and the undo slot as a machine *)

Lemma ready_spec fuel this w :
  ready fuel (this, w) = true <->
  wf_arrays (arrays w) = true /\
  (forall c, c ∈ commands this -> depth c <= length (arrays w)) /\
  (forall c, undoCommand this = Some c -> depth c <= length (arrays w)) /\
  length (arrays w) <= fuel.
Proof.
  unfold ready. simpl. rewrite !andb_true_iff, forallb_forall, Nat.leb_le.
  split.
  - intros [[[Hwf Hcs] Hu] Hf]. split; [done|]. split; [|split; [|done]].
    + intros c Hc%list_elem_of_In. by apply Nat.leb_le, Hcs.
    + intros c Hc. rewrite Hc in Hu. by apply Nat.leb_le.
  - intros (Hwf & Hcs & Hu & Hf). split; [split; [split|]|]; try done.
    + intros c Hc%list_elem_of_In. by apply Nat.leb_le, Hcs.
    + destruct (undoCommand this) as [c|]; [|done]. by apply Nat.leb_le, Hu.
Qed.

(* one call from a ready state: what it completes with, the slot it
   leaves, and that the state stays ready *)
Lemma call_ready fuel c s :
  ready fuel s = true ->
  ready fuel (snd (call fuel c s)) = true /\
  commands (fst (snd (call fuel c s))) = commands (fst s) /\
  slot (fst (snd (call fuel c s))) = slot_step (commands (fst s)) (slot (fst s)) c /\
  (no_negative_index [c] = true -> fst (call fuel c s) = Normal undefined).
Proof.
  destruct s as [this w]. intros Hr.
  pose proof Hr as (Hwf & Hcs & Hu & Hf)%ready_spec.
  destruct c as [index|]; cbn [call fst snd slot_step].
  - destruct (Array_get (commands this) index) as [cmd|] eqn:Hget.
    + assert (Hd : depth cmd <= length (arrays w)).
      { apply Hcs. apply Array_get_Some in Hget as [_ Hget].
        by eapply list_elem_of_lookup_2. }
      destruct (execute_total fuel cmd w) as (w' & Hex & Hw'); [done|done|lia|].
      rewrite (pressButton_valid _ _ _ _ _ Hget), Hex. simpl.
      split; [|done]. apply ready_spec. simpl. rewrite Hw'.
      split; [done|]. split; [done|]. split; [|done]. by intros c [= <-].
    + destruct (Z.ltb_spec index 0) as [Hneg|Hpos].
      * rewrite (pressButton_negative _ _ _ _ Hneg). simpl.
        split; [done|]. split; [done|]. split; [done|].
        destruct (Z.leb_spec 0 index); [lia|done].
      * assert (Z.of_nat (length (commands this)) <= index)%Z.
        { destruct (Z.le_gt_cases (Z.of_nat (length (commands this))) index); [done|].
          destruct (Array_get_valid (commands this) index) as [x Hx]; [lia|congruence]. }
        rewrite pressButton_not_found by done. simpl.
        split; [by apply ready_spec|done].
  - destruct (undoCommand this) as [cmd|] eqn:Hcmd.
    + destruct (undo_total fuel cmd w) as (w' & Hun & Hwf' & Hlen' & _);
        [done|by apply Hu|specialize (Hu cmd eq_refl); lia|].
      rewrite (pressUndo_holding _ _ _ _ Hcmd), Hun. simpl.
      split; [|done]. apply ready_spec. simpl. rewrite Hlen'. done.
    + rewrite pressUndo_empty by done. simpl.
      split; [|split; [done|split; [|done]]].
      * apply ready_spec. simpl. rewrite Hcmd. done.
      * unfold slot. by rewrite Hcmd.
Qed.

Lemma run_calls_ready fuel calls s :
  ready fuel s = true ->
  ready fuel (run_calls fuel calls s) = true /\
  slot (fst (run_calls fuel calls s)) = slot_after (commands (fst s)) (slot (fst s)) calls /\
  (no_negative_index calls = true ->
   Forall (fun r => r = Normal undefined) (completions fuel calls s)).
Proof.
  revert s. induction calls as [|c calls IH]; intros s Hr; [done|].
  destruct (call_ready fuel c s Hr) as (Hr1 & Hc1 & Hs1 & Hn1).
  destruct (IH _ Hr1) as (Hr2 & Hs2 & Hn2). simpl.
  split; [done|]. split.
  - rewrite Hs2, Hc1, Hs1. done.
  - intros [Hc Hcalls]%andb_true_iff. constructor.
    + apply Hn1. simpl. by rewrite Hc.
    + by apply Hn2.
Qed.



(** X7.  Over whole runs the undo slot is the machine of [slot_step]:
    from a state as in X6, after any sequence of pressButton and
    pressUndo calls (any indices, negative ones too) the slot is what the
    machine computes from the registered commands and the calls alone: a
    press of an index that holds a command overwrites it, a press of any
    other index keeps it, an undo empties it. *)
Theorem X7_the_undo_slot_follows_its_machine fuel calls s :
  ready fuel s = true ->
  slot (fst (run_calls fuel calls s)) =
  slot_after (commands (fst s)) (slot (fst s)) calls.
Proof.
  intros Hr. by destruct (run_calls_ready fuel calls s Hr) as (_ & Hs & _).
Qed.

Lemma X7_the_undo_slot_follows_its_machine_witness :
  let s := (mkRemoteControl [lightOn; partyModeOn; partyModeOff] None, snd party_modes) in
  ready 2 s = true /\
  slot (fst (run_calls 2 [PressButton 0; PressButton 2; PressButton (-1); PressButton 5] s))
    = Holding partyModeOff /\
  slot (fst (run_calls 2 [PressButton 1; PressUndo; PressUndo] s)) = Empty.
Proof.
  intros s. split; [reflexivity|]. split.
  - rewrite (X7_the_undo_slot_follows_its_machine 2 _ s); reflexivity.
  - rewrite (X7_the_undo_slot_follows_its_machine 2 _ s); reflexivity.
Defined.

(** ** What a command prints does not depend on what was printed *)

Lemma runEach_execute_console_frame n :
  (forall c σ l,
     execute n c (mkWorld σ l) =
     (fst (execute n c (mkWorld σ [])),
      mkWorld σ (l ++ console (snd (execute n c (mkWorld σ [])))))) ->
  forall cs σ l,
    runEach (execute n) cs (mkWorld σ l) =
    (fst (runEach (execute n) cs (mkWorld σ [])),
     mkWorld σ (l ++ console (snd (runEach (execute n) cs (mkWorld σ []))))).
Proof.
  intros IH. induction cs as [|c cs IHcs]; intros σ l.
  - simpl. by rewrite app_nil_r.
  - simpl. unfold seq. rewrite (IH c σ l).
    pose proof (execute_arrays n c (mkWorld σ [])) as Harr.
    destruct (execute n c (mkWorld σ [])) as [[v|e] [σ1 o1]]; simpl in *; subst σ1;
      [|done].
    rewrite (IHcs σ (l ++ o1)), (IHcs σ o1). simpl. by rewrite app_assoc.
Qed.

Lemma execute_console_frame fuel c σ l :
  execute fuel c (mkWorld σ l) =
  (fst (execute fuel c (mkWorld σ [])),
   mkWorld σ (l ++ console (snd (execute fuel c (mkWorld σ []))))).
Proof.
  revert c σ l. induction fuel as [|n IH]; intros [x|x|x|x|a] σ l; try done;
    try (simpl; by rewrite app_nil_r).
  destruct (σ !! a) as [cs|] eqn:Ha.
  - rewrite (execute_macro n a cs (mkWorld σ l) Ha),
      (execute_macro n a cs (mkWorld σ []) Ha).
    by apply runEach_execute_console_frame.
  - simpl. unfold MacroCommand.execute, Array_forEach. simpl. rewrite Ha. simpl.
    by rewrite app_nil_r.
Qed.

Section LastLineWins.

(* what is observed of a receiver: each line sets it or leaves it *)
Variable observe : Power -> string -> Power.

Hypothesis sets_or_keeps : forall line,
  (forall s s', observe s line = observe s' line) \/ (forall s, observe s line = s).

Lemma foldl_sets_or_keeps lines :
  (forall s s', foldl observe s lines = foldl observe s' lines) \/
  (forall s, foldl observe s lines = s).
Proof.
  induction lines as [|line lines IH]; [by right|].
  destruct IH as [IH|IH].
  - left. intros s s'. simpl. apply IH.
  - destruct (sets_or_keeps line) as [H|H].
    + left. intros s s'. simpl. by rewrite !IH.
    + right. intros s. simpl. by rewrite IH.
Qed.

Lemma foldl_observe_twice s lines :
  foldl observe (foldl observe s lines) lines = foldl observe s lines.
Proof. destruct (foldl_sets_or_keeps lines) as [H|H]; [apply H|by rewrite !H]. Qed.

End LastLineWins.

Lemma Light_line_sets_or_keeps line :
  (forall s s', Light_line s line = Light_line s' line) \/
  (forall s, Light_line s line = s).
Proof. unfold Light_line. repeat case_decide; auto. Qed.

Lemma TV_line_sets_or_keeps line :
  (forall s s', TV_line s line = TV_line s' line) \/
  (forall s, TV_line s line = s).
Proof. unfold TV_line. repeat case_decide; auto. Qed.

Lemma states_after_twice initial_light initial_tv l o :
  lightState initial_light ((l ++ o) ++ o) = lightState initial_light (l ++ o) /\
  tvState initial_tv ((l ++ o) ++ o) = tvState initial_tv (l ++ o).
Proof.
  unfold lightState, tvState. rewrite !foldl_app. split.
  - apply foldl_observe_twice, Light_line_sets_or_keeps.
  - apply foldl_observe_twice, TV_line_sets_or_keeps.
Qed.

(** X8.  Pressing a button again changes nothing that can be observed of
    the receivers: for any index, any state and any fuel, a second
    pressButton with the same index right after the first completes as
    the first did and leaves the invoker, the store, the light and the TV
    as the first left them. *)
Theorem X8_pressing_again_changes_no_state fuel index s initial_light initial_tv :
  let r1 := pressButton fuel index s in
  let r2 := pressButton fuel index (snd r1) in
  fst r2 = fst r1 /\
  fst (snd r2) = fst (snd r1) /\
  arrays (snd (snd r2)) = arrays (snd (snd r1)) /\
  lightState initial_light (console (snd (snd r2))) =
    lightState initial_light (console (snd (snd r1))) /\
  tvState initial_tv (console (snd (snd r2))) =
    tvState initial_tv (console (snd (snd r1))).
Proof.
  destruct s as [this [σ l]]. cbv zeta.
  destruct (Array_get (commands this) index) as [c|] eqn:Hget.
  - rewrite (pressButton_valid _ _ _ _ _ Hget), (execute_console_frame fuel c σ l).
    destruct (execute fuel c (mkWorld σ [])) as [[v|e] [σ1 o]] eqn:Hex;
      cbn [fst snd console].
    + rewrite (pressButton_valid _ _ (mkRemoteControl (commands this) (Some c)) _ _ Hget),
        (execute_console_frame fuel c σ (l ++ o)), Hex. simpl.
      split; [done|]. split; [done|]. split; [done|]. apply states_after_twice.
    + rewrite (pressButton_valid _ _ _ _ _ Hget),
        (execute_console_frame fuel c σ (l ++ o)), Hex. simpl.
      split; [done|]. split; [done|]. split; [done|]. apply states_after_twice.
  - destruct (Z.ltb_spec index 0) as [Hneg|Hpos].
    + rewrite !(pressButton_negative _ _ _ _ Hneg). cbn [fst snd].
      by rewrite !(pressButton_negative _ _ _ _ Hneg).
    + assert (Z.of_nat (length (commands this)) <= index)%Z.
      { destruct (Z.le_gt_cases (Z.of_nat (length (commands this))) index); [done|].
        destruct (Array_get_valid (commands this) index) as [x Hx]; [lia|congruence]. }
      rewrite !pressButton_not_found by done. cbn [fst snd].
      rewrite !pressButton_not_found by done. simpl.
      split; [done|]. split; [done|]. split; [done|]. apply states_after_twice.
Qed.

Lemma lightState_app s l1 l2 :
  lightState s (l1 ++ l2) = lightState (lightState s l1) l2.
Proof. apply foldl_app. Qed.

Lemma tvState_app s l1 l2 : tvState s (l1 ++ l2) = tvState (tvState s l1) l2.
Proof. apply foldl_app. Qed.

(** X9.  What pressButton followed at once by pressUndo leaves, for an
    index that holds a leaf command or a macro command of leaf commands:
    both calls complete normally, every receiver the command acts on is
    left in the state opposite to the one the command's first action on
    it sets, whatever its state before, and a receiver the command does
    not act on keeps its state. *)
Theorem X9_dispatch_then_undo_leaves_the_opposite fuel index this w cmd cs
    initial_light initial_tv :
  Array_get (commands this) index = Some cmd ->
  leaves (arrays w) cmd = Some cs ->
  exists s1 s2,
    pressButton (S fuel) index (this, w) = (Normal undefined, s1) /\
    pressUndo (S fuel) s1 = (Normal undefined, s2) /\
    lightState initial_light (console (snd s2)) =
      default (lightState initial_light (console w))
        (opposite <$> first_target light_target cs) /\
    tvState initial_tv (console (snd s2)) =
      default (tvState initial_tv (console w))
        (opposite <$> first_target tv_target cs).
Proof.
  intros Hget Hcs.
  pose proof (leaves_are_leaves _ _ _ Hcs) as Hleaf.
  set (w1 := mkWorld (arrays w) (console w ++ lines_each (execute 0) cs)).
  destruct (undo_leaves fuel cmd cs w1 Hcs) as [σ' Hun].
  exists (mkRemoteControl (commands this) (Some cmd), w1).
  eexists. split; [|split].
  - by rewrite (pressButton_valid _ _ _ _ _ Hget), (execute_leaves _ _ _ _ Hcs).
  - by rewrite (pressUndo_holding _ (mkRemoteControl (commands this) (Some cmd))
                 w1 cmd eq_refl), Hun.
  - simpl. rewrite <- !app_assoc, lightState_app, tvState_app.
    rewrite (lightState_execute_then_undo cs _ Hleaf),
      (tvState_execute_then_undo cs _ Hleaf).
    split.
    + by destruct (first_target light_target cs).
    + by destruct (first_target tv_target cs).
Qed.

Lemma X9_dispatch_then_undo_leaves_the_opposite_witness :
  let this := mkRemoteControl [lightOn; partyModeOn] None in
  let w := snd party_modes in
  Array_get (commands this) 1 = Some partyModeOn /\
  leaves (arrays w) partyModeOn = Some [lightOn; tvOn] /\
  exists s1 s2,
    pressButton 1 1 (this, w) = (Normal undefined, s1) /\
    pressUndo 1 s1 = (Normal undefined, s2) /\
    lightState ON (console (snd s2)) = OFF /\
    tvState ON (console (snd s2)) = OFF.
Proof.
  intros this w. split; [reflexivity|]. split; [reflexivity|].
  apply (X9_dispatch_then_undo_leaves_the_opposite 0 1 this w partyModeOn
           [lightOn; tvOn] ON ON); reflexivity.
Defined.

(** X10.  Registering never changes what an index dispatches: after
    setCommand, pressButton on every index that held a command before
    completes as it did before the registration and leaves the same
    world and the same command in the undo slot. *)
Theorem X10_registration_keeps_the_indices fuel index this w command cmd :
  Array_get (commands this) index = Some cmd ->
  let this' := snd (setCommand command this) in
  Array_get (commands this') index = Some cmd /\
  fst (pressButton fuel index (this', w)) = fst (pressButton fuel index (this, w)) /\
  snd (snd (pressButton fuel index (this', w))) =
    snd (snd (pressButton fuel index (this, w))) /\
  undoCommand (fst (snd (pressButton fuel index (this', w)))) =
    undoCommand (fst (snd (pressButton fuel index (this, w)))).
Proof.
  intros Hget this'.
  assert (Hget' : Array_get (commands this') index = Some cmd).
  { apply Array_get_Some in Hget as [H0 Hx]. apply Array_get_Some.
    split; [done|]. subst this'. simpl. by apply lookup_app_l_Some. }
  split; [done|].
  rewrite (pressButton_valid _ _ _ _ _ Hget), (pressButton_valid _ _ _ _ _ Hget').
  by destruct (execute fuel cmd w) as [[v|e] w'].
Qed.

Lemma X10_registration_keeps_the_indices_witness :
  let this := mkRemoteControl [lightOn; tvOff] None in
  Array_get (commands this) 1 = Some tvOff /\
  Array_get (commands (snd (setCommand lightOff this))) 1 = Some tvOff.
Proof.
  intros this. split; [reflexivity|].
  destruct (X10_registration_keeps_the_indices 0 1 this empty_world lightOff tvOff)
    as (H & _); [reflexivity|exact H].
Defined.

(** ** A macro command that holds itself *)

Lemma is_macro_over_eq a c : is_macro_over a c = true -> c = MacroCommand a.
Proof. destruct c as [x|x|x|x|b]; try done. simpl. by intros ->%Nat.eqb_eq. Qed.

Lemma holds_itself_lookup σ σ' a :
  σ' !! a = σ !! a -> holds_itself σ' a = holds_itself σ a.
Proof. unfold holds_itself. by intros ->. Qed.

Lemma runEach_execute_stuck n a σ :
  (forall w, arrays w = σ -> exists e, fst (execute n (MacroCommand a) w) = Abrupt e) ->
  forall l, existsb (is_macro_over a) l = true ->
  forall w, arrays w = σ -> exists e, fst (runEach (execute n) l w) = Abrupt e.
Proof.
  intros Hstuck. induction l as [|c l IH]; intros Hl w Hw; [done|].
  simpl. unfold seq. pose proof (execute_arrays n c w) as Harr.
  destruct (execute n c w) as [[v|e] w'] eqn:Hex; [|by exists e].
  simpl in Hl. apply orb_true_iff in Hl as [Hc|Hl].
  - apply is_macro_over_eq in Hc as ->.
    destruct (Hstuck w Hw) as [e He]. rewrite Hex in He. done.
  - apply IH; [done|]. simpl in Harr. congruence.
Qed.

Lemma execute_stuck fuel a w :
  holds_itself (arrays w) a = true ->
  exists e, fst (execute fuel (MacroCommand a) w) = Abrupt e.
Proof.
  unfold holds_itself. destruct (arrays w !! a) as [cs|] eqn:Ha; [|done].
  intros Hcs. remember (arrays w) as σ eqn:Hσ. revert w Hσ.
  induction fuel as [|n IH]; intros w Hσ; [by exists OutOfFuel|].
  rewrite (execute_macro n a cs w) by (by rewrite <- Hσ).
  apply (runEach_execute_stuck n a σ); [|done|done].
  intros w' Hw'. by apply IH.
Qed.

Lemma forEach_undo_keeps n a b :
  (forall c w v w', holds_itself (arrays w) a = true ->
     undo n c w = (Normal v, w') -> arrays w' !! a = arrays w !! a) ->
  forall m k w v w', holds_itself (arrays w) a = true ->
    forEach_from (undo n) b k m w = (Normal v, w') -> arrays w' !! a = arrays w !! a.
Proof.
  intros IHii. induction m as [|m IH]; intros k w v w' Hw Hrun.
  - by injection Hrun as _ <-.
  - simpl in Hrun. destruct (arrays w !! b ≫= (.!! k)) as [c|]; [|by eapply IH].
    unfold seq in Hrun. destruct (undo n c w) as [[v1|e] w1] eqn:Hun; [|done].
    pose proof (IHii c w v1 w1 Hw Hun) as H1.
    rewrite <- H1. eapply IH; [|exact Hrun]. by rewrite (holds_itself_lookup _ _ _ H1).
Qed.

Lemma forEach_undo_stuck n a l :
  (forall w, holds_itself (arrays w) a = true ->
     exists e, fst (undo n (MacroCommand a) w) = Abrupt e) ->
  (forall c w v w', holds_itself (arrays w) a = true ->
     undo n c w = (Normal v, w') -> arrays w' !! a = arrays w !! a) ->
  forall m k w j c,
    arrays w !! a = Some l -> k <= j < k + m ->
    l !! j = Some c -> is_macro_over a c = true ->
    exists e, fst (forEach_from (undo n) a k m w) = Abrupt e.
Proof.
  intros IHi IHii. induction m as [|m IH]; intros k w j c Ha Hj Hc Hm; [lia|].
  assert (Hw : holds_itself (arrays w) a = true).
  { unfold holds_itself. rewrite Ha. apply existsb_exists. exists c.
    split; [|done]. apply list_elem_of_In. by eapply list_elem_of_lookup_2. }
  simpl. rewrite Ha. simpl.
  destruct (l !! k) as [ck|] eqn:Hk.
  - unfold seq. destruct (undo n ck w) as [[v1|e] w1] eqn:Hun; [|by exists e].
    destruct (decide (k = j)) as [->|Hne].
    + assert (ck = c) as -> by congruence. apply is_macro_over_eq in Hm as ->.
      destruct (IHi w Hw) as [e He]. rewrite Hun in He. done.
    + apply (IH (S k) w1 j c); [|lia|done|done].
      rewrite (IHii ck w v1 w1 Hw Hun). done.
  - apply lookup_ge_None in Hk. apply lookup_lt_Some in Hc. lia.
Qed.

Lemma undo_stuck_both a n :
  (forall w, holds_itself (arrays w) a = true ->
     exists e, fst (undo n (MacroCommand a) w) = Abrupt e) /\
  (forall c w v w', holds_itself (arrays w) a = true ->
     undo n c w = (Normal v, w') -> arrays w' !! a = arrays w !! a).
Proof.
  induction n as [|n [IHi IHii]].
  - split; [intros; by exists OutOfFuel|].
    intros [x|x|x|x|b] w v w' _ Hun; try done; by injection Hun as _ <-.
  - assert (Hi : forall w, holds_itself (arrays w) a = true ->
              exists e, fst (undo (S n) (MacroCommand a) w) = Abrupt e).
    { intros w Hw. unfold holds_itself in Hw.
      destruct (arrays w !! a) as [cs|] eqn:Ha; [|done].
      apply existsb_exists in Hw as (c & Hc & Hm).
      apply in_rev, list_elem_of_In, list_elem_of_lookup in Hc as [j Hj].
      rewrite (undo_macro_unfold n a cs w Ha).
      apply (forEach_undo_stuck n a (rev cs) IHi IHii _ 0 _ j c); [| |done|done].
      - simpl. apply list_lookup_insert_eq. eauto using lookup_lt_Some.
      - apply lookup_lt_Some in Hj. rewrite length_rev in Hj. lia. }
    split; [exact Hi|].
    intros [x|x|x|x|b] w v w' Hw Hun; try (by injection Hun as _ <-).
    destruct (decide (b = a)) as [->|Hne].
    { destruct (Hi w Hw) as [e He]. rewrite Hun in He. done. }
    destruct (arrays w !! b) as [cs|] eqn:Hb.
    + rewrite (undo_macro_unfold n b cs w Hb) in Hun.
      apply (forEach_undo_keeps n a b IHii) in Hun.
      * rewrite Hun. simpl. by apply list_lookup_insert_ne.
      * erewrite holds_itself_lookup; [exact Hw|]. simpl.
        by apply list_lookup_insert_ne.
    + simpl in Hun. unfold MacroCommand.undo, seq, Array_reverse in Hun.
      by rewrite Hb in Hun.
Qed.

(** X11.  A macro command whose array holds that macro command never
    completes: with any fuel, execute() and undo() of it end abruptly,
    and so does pressButton on an index that holds it, which then leaves
    the invoker, the undo slot included, as it was. *)
Theorem X11_a_macro_that_holds_itself_never_completes fuel a w :
  holds_itself (arrays w) a = true ->
  (exists e, fst (execute fuel (MacroCommand a) w) = Abrupt e) /\
  (exists e, fst (undo fuel (MacroCommand a) w) = Abrupt e) /\
  (forall index this,
     Array_get (commands this) index = Some (MacroCommand a) ->
     (exists e, fst (pressButton fuel index (this, w)) = Abrupt e) /\
     fst (snd (pressButton fuel index (this, w))) = this).
Proof.
  intros Hw. pose proof (execute_stuck fuel a w Hw) as [e He].
  split; [by exists e|]. split; [by apply (undo_stuck_both a fuel)|].
  intros index this Hget. rewrite (pressButton_valid _ _ _ _ _ Hget).
  destruct (execute fuel (MacroCommand a) w) as [[v|e'] w']; [done|].
  split; [by exists e'|done].
Qed.

Lemma X11_a_macro_that_holds_itself_never_completes_witness :
  let w := mkWorld [[lightOn; MacroCommand 0]] [] in
  holds_itself (arrays w) 0 = true /\
  (exists e, fst (execute 5 (MacroCommand 0) w) = Abrupt e) /\
  (exists e, fst (undo 5 (MacroCommand 0) w) = Abrupt e).
Proof.
  intros w. split; [reflexivity|].
  destruct (X11_a_macro_that_holds_itself_never_completes 5 0 w) as (H1 & H2 & _);
    [reflexivity|].
  split; [exact H1|exact H2].
Defined.

(** ** undo() twice *)

Lemma xorv_comm p q : xorv p q = xorv q p.
Proof.
  revert q. induction p as [|b p IH]; intros [|c q]; simpl; try done.
  unfold xorv in *. simpl. by rewrite IH, xorb_comm.
Qed.

Lemma xorv_assoc p q r : xorv p (xorv q r) = xorv (xorv p q) r.
Proof.
  revert q r. induction p as [|b p IH]; intros [|c q] [|d r]; simpl; try done.
  unfold xorv in *. simpl. by rewrite IH, xorb_assoc.
Qed.

Lemma xorv_length p q : length p = length q -> length (xorv p q) = length q.
Proof. intros H. unfold xorv. rewrite length_zip_with. lia. Qed.

Lemma xorv_self p : xorv p p = replicate (length p) false.
Proof.
  induction p as [|b p IH]; [done|]. unfold xorv in *. simpl.
  by rewrite IH, xorb_nilpotent.
Qed.

Lemma foldr_xorv_length L u ps :
  length u = L -> Forall (fun p => length p = L) ps -> length (foldr xorv u ps) = L.
Proof.
  intros Hu. induction 1 as [|p ps Hp Hps IH]; [done|].
  simpl. rewrite xorv_length; congruence.
Qed.

Lemma foldr_xorv_snoc u ps p :
  foldr xorv u (ps ++ [p]) = xorv p (foldr xorv u ps).
Proof.
  induction ps as [|q ps IH]; [done|]. simpl. rewrite IH.
  by rewrite !xorv_assoc, (xorv_comm q p).
Qed.

Lemma foldr_xorv_rev u ps : foldr xorv u (rev ps) = foldr xorv u ps.
Proof.
  induction ps as [|p ps IH]; [done|]. simpl. by rewrite foldr_xorv_snoc, IH.
Qed.

Lemma unitv_length L a : length (unitv L a) = L.
Proof. unfold unitv. by rewrite length_insert, length_replicate. Qed.

Lemma flips_length n σ c : length (flips n σ c) = length σ.
Proof.
  revert c. induction n as [|n IH]; intros [x|x|x|x|a]; simpl;
    try apply length_replicate.
  apply foldr_xorv_length; [apply unitv_length|].
  apply Forall_forall. intros p Hp%list_elem_of_In%in_map_iff.
  destruct Hp as (c & <- & _). apply IH.
Qed.

Lemma flipby_length p σ : length p = length σ -> length (flipby p σ) = length σ.
Proof. intros H. unfold flipby. rewrite length_zip_with. lia. Qed.

Lemma flipby_xorv p q σ : flipby (xorv p q) σ = flipby p (flipby q σ).
Proof.
  revert q σ. induction p as [|b p IH]; intros [|c q] [|cs σ]; try done.
  unfold flipby, xorv in *. simpl. f_equal; [|apply IH].
  destruct b, c; simpl; by rewrite ?rev_involutive.
Qed.

Lemma flipby_zeros σ : flipby (replicate (length σ) false) σ = σ.
Proof. induction σ as [|cs σ IH]; [done|]. unfold flipby in *. simpl. by rewrite IH. Qed.

Lemma flipby_lookup (p : list bool) (σ : list (list Command)) (a : nat) :
  flipby p σ !! a =
  match p !! a, σ !! a with
  | Some b, Some cs => Some (if b : bool then rev cs else cs)
  | _, _ => None
  end.
Proof.
  unfold flipby. rewrite lookup_zip_with.
  destruct (p !! a); [|done]. simpl. by destruct (σ !! a).
Qed.

Lemma flipby_unitv σ a cs :
  σ !! a = Some cs -> flipby (unitv (length σ) a) σ = <[a := rev cs]> σ.
Proof.
  intros Ha. pose proof (lookup_lt_Some _ _ _ Ha) as Hlt.
  apply list_eq. intros i. rewrite flipby_lookup. unfold unitv.
  destruct (decide (i = a)) as [->|Hne].
  - rewrite !list_lookup_insert_eq by (rewrite ?length_replicate; lia).
    by rewrite Ha.
  - rewrite !list_lookup_insert_ne by done.
    destruct (σ !! i) as [csi|] eqn:Hi.
    + rewrite lookup_replicate_2; [done|]. eauto using lookup_lt_Some.
    + by destruct (replicate (length σ) false !! i).
Qed.

Lemma flipby_same_or_reversed p σ :
  length p = length σ -> Forall2 same_or_reversed σ (flipby p σ).
Proof.
  intros Hlen. apply Forall2_same_length_lookup_2; [by rewrite flipby_length|].
  intros i cs cs' Hcs. rewrite flipby_lookup, Hcs.
  destruct (p !! i) as [[]|]; intros [= <-]; [by right|by left].
Qed.

(* which arrays undo() leaves reversed does not depend on which are
   reversed before *)
Lemma flips_flipby n q σ c :
  length q = length σ -> flips n (flipby q σ) c = flips n σ c.
Proof.
  intros Hlen. revert c. induction n as [|n IH]; intros [x|x|x|x|a]; simpl;
    rewrite ?flipby_length by done; try done.
  rewrite flipby_lookup.
  destruct (σ !! a) as [cs|] eqn:Ha; [|by destruct (q !! a)].
  destruct (lookup_lt_is_Some_2 q a) as [b Hb];
    [rewrite Hlen; eauto using lookup_lt_Some|].
  rewrite Hb. simpl. destruct b.
  - rewrite map_rev, foldr_xorv_rev. f_equal. apply map_ext. intros c. apply IH.
  - f_equal. apply map_ext. intros c. apply IH.
Qed.

Lemma foldl_xorv_rev (f : Command -> list bool) q cs :
  foldl (fun q c => xorv (f c) q) q (rev cs) = foldr xorv q (map f cs).
Proof.
  induction cs as [|c cs IH]; [done|]. simpl. by rewrite foldl_app, IH.
Qed.

(* undo() of c1, ..., cn one after the other, from a store that differs
   from [σ] by reversals *)
Lemma runEach_undo_flips n σ :
  wf_arrays σ = true ->
  (forall c τ l, wf_arrays τ = true -> depth c <= length τ -> depth c <= n ->
     exists l', undo n c (mkWorld τ l) =
                (Normal undefined, mkWorld (flipby (flips n τ c) τ) l')) ->
  forall ms q l,
    length q = length σ ->
    (forall c, c ∈ ms -> depth c <= length σ /\ depth c <= n) ->
    exists l', runEach (undo n) ms (mkWorld (flipby q σ) l) =
      (Normal undefined,
       mkWorld (flipby (foldl (fun q c => xorv (flips n σ c) q) q ms) σ) l').
Proof.
  intros Hwf IH. induction ms as [|c ms IHms]; intros q l Hq Hms; [by eexists|].
  destruct (Hms c) as [Hc1 Hc2]; [by left|].
  destruct (IH c (flipby q σ) l) as [l1 Hun].
  { eapply wf_arrays_same_or_reversed; [exact Hwf|by apply flipby_same_or_reversed]. }
  { by rewrite flipby_length. }
  { done. }
  rewrite flips_flipby, <- flipby_xorv in Hun by done.
  destruct (IHms (xorv (flips n σ c) q) l1) as [l2 Hrun].
  { rewrite xorv_length; [done|]. by rewrite flips_length. }
  { intros c' Hc'. apply Hms. by right. }
  exists l2. simpl. by rewrite (seq_normal _ _ _ _ _ Hun).
Qed.

(* In a store without cycles undo() completes and leaves reversed the
   arrays that [flips] says. *)
Lemma undo_flips n c σ l :
  wf_arrays σ = true -> depth c <= length σ -> depth c <= n ->
  exists l', undo n c (mkWorld σ l) =
             (Normal undefined, mkWorld (flipby (flips n σ c) σ) l').
Proof.
  revert c σ l. induction n as [|n IH]; intros [x|x|x|x|a] σ l Hwf Hlen Hn;
    simpl in Hn; try lia; try (eexists; simpl; by rewrite flipby_zeros).
  simpl in Hlen. destruct (lookup_lt_is_Some_2 σ a) as [cs Ha]; [lia|].
  destruct (undo_macro n a cs (mkWorld σ l) Hwf Ha) as (Heq & _); [lia|].
  rewrite Heq. simpl. rewrite <- (flipby_unitv σ a cs Ha).
  destruct (runEach_undo_flips n σ Hwf IH (rev cs) (unitv (length σ) a) l) as [l' Hrun].
  - apply unitv_length.
  - intros c Hc%list_elem_of_In%in_rev%list_elem_of_In.
    pose proof (wf_arrays_lookup σ a cs c Hwf Ha Hc). lia.
  - exists l'. rewrite Hrun, foldl_xorv_rev, Ha. done.
Qed.

(** X12.  Two undo() calls in a row put every array back: in a store
    without cycles and with fuel for the nesting, undo() of any command
    followed at once by undo() of the same command both complete
    normally and leave every array of the store, those of nested macro
    commands too, as it was before the first. *)
Theorem X12_two_undos_restore_every_array fuel command w :
  wf_arrays (arrays w) = true ->
  depth command <= length (arrays w) -> depth command <= fuel ->
  exists w1 w2,
    undo fuel command w = (Normal undefined, w1) /\
    undo fuel command w1 = (Normal undefined, w2) /\
    arrays w2 = arrays w.
Proof.
  destruct w as [σ l]. simpl. intros Hwf Hlen Hfuel.
  destruct (undo_flips fuel command σ l Hwf Hlen Hfuel) as [l1 H1].
  set (p := flips fuel σ command) in *.
  assert (Hp : length p = length σ) by apply flips_length.
  destruct (undo_flips fuel command (flipby p σ) l1) as [l2 H2].
  { eapply wf_arrays_same_or_reversed; [exact Hwf|by apply flipby_same_or_reversed]. }
  { by rewrite flipby_length. }
  { done. }
  exists (mkWorld (flipby p σ) l1), (mkWorld (flipby (flips fuel (flipby p σ) command)
                                                (flipby p σ)) l2).
  split; [done|]. split; [done|]. simpl.
  rewrite flips_flipby by done. fold p.
  by rewrite <- flipby_xorv, xorv_self, Hp, flipby_zeros.
Qed.

Lemma X12_two_undos_restore_every_array_witness :
  let '(a, w) := array_literal [partyModeOff; lightOn; partyModeOff; partyModeOn]
                   (snd party_modes) in
  wf_arrays (arrays w) = true /\
  exists w1 w2,
    undo 3 (MacroCommand a) w = (Normal undefined, w1) /\
    undo 3 (MacroCommand a) w1 = (Normal undefined, w2) /\
    arrays w2 = arrays w.
Proof.
  simpl. split; [reflexivity|].
  apply (X12_two_undos_restore_every_array 3 (MacroCommand 2)
           (snd (array_literal [partyModeOff; lightOn; partyModeOff; partyModeOn]
                   (snd party_modes))));
    [reflexivity|simpl; lia|simpl; lia].
Defined.

(** ** A call that throws *)

(** X13.  A call that ends abruptly leaves the invoker as it was: when
    pressButton or pressUndo, with any index and fuel and from any
    state, does not complete normally, the list of commands and the
    undo slot are those of before the call.  In particular the slot is
    not set by a pressButton whose execute() throws, and not emptied by
    a pressUndo whose undo() throws. *)
Theorem X13_a_call_that_throws_keeps_the_invoker fuel c this w :
  (exists e, fst (call fuel c (this, w)) = Abrupt e) ->
  fst (snd (call fuel c (this, w))) = this.
Proof.
  intros [e He]. destruct c as [index|]; simpl in *.
  - unfold pressButton in *. destruct (index <? _)%Z; [|done].
    destruct (Array_get (commands this) index) as [cmd|]; [|done].
    by destruct (execute fuel cmd w) as [[v|e'] w'].
  - unfold pressUndo in *. destruct (undoCommand this) as [cmd|]; [|done].
    by destruct (undo fuel cmd w) as [[v|e'] w'].
Qed.

Lemma X13_a_call_that_throws_keeps_the_invoker_witness :
  let this := mkRemoteControl [lightOn; tvOn] (Some tvOn) in
  (exists e, fst (call 1 (PressButton (-2)) (this, empty_world)) = Abrupt e) /\
  fst (snd (call 1 (PressButton (-2)) (this, empty_world))) = this.
Proof.
  intros this.
  assert (H : exists e, fst (call 1 (PressButton (-2)) (this, empty_world)) = Abrupt e)
    by (by exists TypeError).
  split; [exact H|].
  exact (X13_a_call_that_throws_keeps_the_invoker 1 (PressButton (-2)) this empty_world H).
Defined.

(** * Properties of the other examples *)

(** ** Bridge *)

Lemma Bridge_presses_cons b bs s :
  Bridge.presses (b :: bs) s = Bridge.presses bs (Bridge.press s b).
Proof. reflexivity. Qed.


(** X14.  The power of a device after any run of remote-control calls
    depends on the number of togglePower calls alone: it is the power
    before when that number is even and the opposite when it is odd,
    whatever volumeUp, volumeDown and mute calls come in between (mute
    neither needs the device on nor turns it on); the device stays of its
    class. *)
Theorem X14_power_is_the_parity_of_the_toggles buttons s :
  Bridge.on (Bridge.device (Bridge.presses buttons s)) =
    xorb (Bridge.on (Bridge.device s)) (Nat.odd (Bridge.toggles buttons)) /\
  Bridge.class (Bridge.device (Bridge.presses buttons s)) =
    Bridge.class (Bridge.device s).
Proof.
  revert s. induction buttons as [|b bs IH]; intros s.
  - simpl. by rewrite xorb_false_r.
  - rewrite Bridge_presses_cons. destruct (IH (Bridge.press s b)) as [-> ->].
    destruct s as [[k o v] c], b; unfold Bridge.toggles; simpl;
      fold (Bridge.toggles bs); try done.
    unfold Bridge.togglePower. simpl. rewrite Nat.odd_succ, <- Nat.negb_odd.
    by destruct o, (Nat.odd (Bridge.toggles bs)).
Qed.



(** ** Builder *)

(* one build through a director whose builder is set: the parts that the
   build adds are those of the builder's class, the others stay *)
Lemma Builder_build b k computers c :
  computers !! Builder.computer b = Some c ->
  Builder.build (Builder.mkDirector (Some b)) k computers =
  (Normal undefined,
   <[Builder.computer b :=
       let F := Builder.full (Builder.class b) in
       Builder.mkComputer (Builder.cpu F) (Builder.ram F)
         (match k with
          | Builder.Standard => Builder.gpu c
          | Builder.Enchanced => Builder.gpu F
          end) (Builder.storage F)]> computers).
Proof.
  intros Hc. pose proof (lookup_lt_Some _ _ _ Hc) as Hlt.
  destruct b as [cl l], k, cl; simpl in *;
    unfold Builder.buildStandardComputer, Builder.buildEnchancedComputer, seq,
      Builder.addCPU, Builder.addRAM, Builder.addGPU, Builder.addStorage; simpl;
    rewrite Hc;
    repeat (rewrite list_lookup_insert_eq by (rewrite ?length_insert; lia); simpl);
    by rewrite !list_insert_insert_eq.
Qed.

(** X16.  A builder never starts over.  Whatever sequence of
    buildStandardComputer and buildEnchancedComputer calls (one at
    least) a director makes on a builder, all complete normally and the
    builder's one Computer object ends with the CPU, RAM and storage of
    the builder's class and with its GPU as soon as one call of the
    sequence was buildEnchancedComputer, also when a
    buildStandardComputer came last; otherwise the GPU is as before.  No
    other computer of the store changes. *)
Theorem X16_a_builder_never_starts_over b k ks computers c0 :
  computers !! Builder.computer b = Some c0 ->
  let this := Builder.setBuilder b Builder.new_ComputerDirector in
  let F := Builder.full (Builder.class b) in
  Builder.builds this (k :: ks) computers =
  (Normal undefined,
   <[Builder.computer b :=
       Builder.mkComputer (Builder.cpu F) (Builder.ram F)
         (if Builder.has_enchanced (k :: ks) then Builder.gpu F else Builder.gpu c0)
         (Builder.storage F)]> computers).
Proof.
  intros Hc this F. subst this. unfold Builder.setBuilder.
  revert k computers c0 Hc. induction ks as [|k' ks IH]; intros k computers c0 Hc.
  - cbn [Builder.builds]. unfold seq. rewrite (Builder_build b k computers c0 Hc).
    by destruct k.
  - change (Builder.builds (Builder.mkDirector (Some b)) (k :: k' :: ks) computers)
      with ((Builder.build (Builder.mkDirector (Some b)) k >>>
             Builder.builds (Builder.mkDirector (Some b)) (k' :: ks)) computers).
    unfold seq at 1. rewrite (Builder_build b k computers c0 Hc).
    erewrite IH;
      [|apply list_lookup_insert_eq; eauto using lookup_lt_Some].
    rewrite list_insert_insert_eq. subst F.
    destruct k; simpl; [done|].
    by destruct k', (Builder.has_enchanced ks).
Qed.

Lemma X16_a_builder_never_starts_over_witness :
  let '(b, computers) := Builder.new_builder Builder.OfficeComputerBuilder [] in
  let this := Builder.setBuilder b Builder.new_ComputerDirector in
  computers !! Builder.computer b = Some Builder.new_Computer /\
  Builder.builds this [Builder.Enchanced; Builder.Standard] computers =
  (Normal undefined,
   [Builder.mkComputer "Intel Core i5" "16GB" "Integrated Graphics" "512GB SSD"]).
Proof.
  simpl. split; [reflexivity|].
  apply (X16_a_builder_never_starts_over
           (Builder.mkBuilder Builder.OfficeComputerBuilder 0)
           Builder.Enchanced [Builder.Standard] [Builder.new_Computer]
           Builder.new_Computer).
  reflexivity.
Defined.

(** ** Singleton *)

Lemma Singleton_getInstances_set n l instances :
  Singleton.getInstances n (Singleton.mkState (Some l) instances) =
  (replicate n l, Singleton.mkState (Some l) instances).
Proof. induction n as [|n IH]; [done|]. simpl. by rewrite IH. Qed.

(** X17.  getInstance constructs at most once.  From any state of the
    static field, every one of any number of getInstance calls returns
    the same instance: the one already set, or else the one that the
    first call constructs; the calls after the first construct nothing,
    and the field is left set to that instance. *)
Theorem X17_getInstance_constructs_at_most_once n s :
  let the_one := default (length (Singleton.instances s)) (Singleton.instance s) in
  Singleton.getInstances (S n) s =
  (replicate (S n) the_one,
   Singleton.mkState (Some the_one)
     (Singleton.instances s ++
      match Singleton.instance s with
      | Some _ => []
      | None => [Singleton.new_ConfigurationManager]
      end)).
Proof.
  destruct s as [[l|] insts]; simpl.
  - by rewrite Singleton_getInstances_set, app_nil_r.
  - by rewrite Singleton_getInstances_set.
Qed.

(** ** Command queue *)

Lemma Batch_foldl_execute cs console :
  foldl (fun console command => Batch.execute command console) console cs =
  console ++ flat_map Batch.line cs.
Proof.
  revert console. induction cs as [|c cs IH]; intros console; simpl.
  - by rewrite app_nil_r.
  - rewrite IH. unfold Batch.execute at 1. by rewrite <- app_assoc.
Qed.

Lemma Batch_lines_no_header cs :
  List.filter Batch.not_header (flat_map Batch.line cs) = flat_map Batch.line cs.
Proof.
  induction cs as [|c cs IH]; [done|].
  cbn [flat_map]. rewrite List.filter_app, IH. f_equal. by destruct c.
Qed.

Lemma Batch_run_conserves ops r console :
  List.filter Batch.not_header (snd (Batch.run ops (r, console))) ++
    flat_map Batch.line (Batch.commands (fst (Batch.run ops (r, console)))) =
  List.filter Batch.not_header console ++ flat_map Batch.line (Batch.commands r) ++
    flat_map Batch.line (Batch.added ops).
Proof.
  revert r console. induction ops as [|op ops IH]; intros r console.
  - simpl. by rewrite app_nil_r.
  - change (Batch.run (op :: ops) (r, console))
      with (Batch.run ops (Batch.step (r, console) op)).
    destruct op as [c|].
    + simpl. rewrite IH. simpl. by rewrite flat_map_app, <- !app_assoc.
    + unfold Batch.step, Batch.executeCommands. cbn [fst snd].
      rewrite IH. simpl.
      rewrite Batch_foldl_execute, !List.filter_app, Batch_lines_no_header.
      simpl. by rewrite app_nil_r, <- app_assoc.
Qed.

(** X18.  No queued command is lost, run twice or run out of order.
    After any sequence of addCommand and executeCommands calls on a new
    remote control, the lines that the commands printed (the console less
    the header lines), followed by the lines of the commands still
    queued, are the lines of the commands added, in the order of the
    addCommand calls; and right after an executeCommands the queue is
    empty. *)
Theorem X18_queued_commands_run_once_in_order ops :
  let s := Batch.run ops (Batch.new_RemoteControl, []) in
  List.filter Batch.not_header (snd s) ++ flat_map Batch.line (Batch.commands (fst s)) =
    flat_map Batch.line (Batch.added ops) /\
  Batch.commands (fst (Batch.executeCommands s)) = [].
Proof. cbv zeta. by rewrite Batch_run_conserves. Qed.

(** ** Prototype *)

Lemma Prototype_wf_lookup k cs o c p :
  Prototype.wf_from k cs = true -> cs !! o = Some c -> Prototype.proto c = Some p ->
  p < k + o.
Proof.
  revert k o. induction cs as [|c0 cs IH]; intros k o Hwf Ho Hp; [done|].
  simpl in Hwf. apply andb_true_iff in Hwf as [Hhd Htl]. destruct o as [|o]; simpl in Ho.
  - injection Ho as ->. rewrite Hp in Hhd. apply Nat.ltb_lt in Hhd. lia.
  - specialize (IH (S k) o Htl Ho Hp). lia.
Qed.

(* reading a field of an object looks at no object created after it *)
Lemma Prototype_get_frame {A} (f : Prototype.Character -> option A) n h h' o :
  Prototype.wf h = true ->
  (forall o', o' <= o -> Prototype.characters h' !! o' = Prototype.characters h !! o') ->
  Prototype.get f n h' o = Prototype.get f n h o.
Proof.
  intros Hwf. revert o. induction n as [|n IH]; intros o Hsame; [done|].
  simpl. rewrite (Hsame o) by done.
  destruct (Prototype.characters h !! o) as [c|] eqn:Ho; [|done].
  destruct (f c); [done|]. destruct (Prototype.proto c) as [p|] eqn:Hp; [|done].
  pose proof (Prototype_wf_lookup 0 _ o c p Hwf Ho Hp). apply IH.
  intros o' Ho'. apply Hsame. lia.
Qed.

Lemma Prototype_read_frame {A} (f : Prototype.Character -> option A) h h' o :
  Prototype.wf h = true -> o < length (Prototype.characters h) ->
  (forall o', o' < length (Prototype.characters h) ->
     Prototype.characters h' !! o' = Prototype.characters h !! o') ->
  Prototype.read f h' o = Prototype.read f h o.
Proof.
  intros Hwf Ho Hsame. apply Prototype_get_frame; [done|].
  intros o' Ho'. apply Hsame. lia.
Qed.

Ltac prototype_frame :=
  let o := fresh "o" in let Ho := fresh "Ho" in
  intros o Ho; unfold Prototype.assign, Prototype.with_characters,
    Prototype.with_inventories, Prototype.with_records, Prototype.with_teams,
    Prototype.with_member_arrays; simpl;
  rewrite ?list_lookup_alter_ne by lia; by rewrite lookup_app_l by lia.

Lemma Prototype_alter_last {A} (g : A -> A) (l : list A) (x : A) :
  alter g (length l) (l ++ [x]) = l ++ [g x].
Proof. rewrite alter_app_r_alt by lia. by rewrite Nat.sub_diag. Qed.

(* what clone() allocates and what it leaves alone *)
Lemma Prototype_clone_spec this h c h' :
  Prototype.wf h = true -> this < length (Prototype.characters h) ->
  Prototype.clone this h = Some (c, h') ->
  c = length (Prototype.characters h) /\
  exists items cobj,
    Prototype.items_of h this = Some items /\
    Prototype.characters h' = Prototype.characters h ++ [cobj] /\
    Prototype.proto cobj = Some this /\
    Prototype.name cobj = None /\ Prototype.health cobj = None /\
    Prototype.inventory cobj = Some (length (Prototype.inventories h)) /\
    Prototype.inventories h' = Prototype.inventories h ++ [items] /\
    match Prototype.read Prototype.team h this with
    | None =>
        Prototype.team cobj = None /\
        Prototype.teams h' = Prototype.teams h /\
        Prototype.member_arrays h' = Prototype.member_arrays h
    | Some t =>
        exists T ms,
          Prototype.teams h !! t = Some T /\
          Prototype.member_arrays h !! Prototype.members T = Some ms /\
          Prototype.team cobj = Some (length (Prototype.teams h)) /\
          Prototype.teams h' =
            Prototype.teams h ++
            [Prototype.mkTeam false (Prototype.team_name T)
               (length (Prototype.member_arrays h))] /\
          Prototype.member_arrays h' =
            Prototype.member_arrays h ++
            [map (fun member => if Nat.eqb member this then c else member) ms]
    end.
Proof.
  intros Hwf Hthis. unfold Prototype.clone. cbv zeta.
  rewrite (Prototype_read_frame Prototype.inventory h _ this Hwf Hthis)
    by prototype_frame.
  cbn [Prototype.inventories Prototype.with_characters].
  fold (Prototype.items_of h this).
  destruct (Prototype.items_of h this) as [items|] eqn:Hitems; [|done].
  rewrite (Prototype_read_frame Prototype.team h _ this Hwf Hthis)
    by prototype_frame.
  destruct (Prototype.read Prototype.team h this) as [t|] eqn:Ht.
  - cbn [Prototype.teams Prototype.member_arrays Prototype.with_characters
         Prototype.with_inventories Prototype.with_records Prototype.assign].
    destruct (Prototype.teams h !! t) as [T|] eqn:HT; [|done]. simpl.
    destruct (Prototype.member_arrays h !! Prototype.members T) as [ms|] eqn:Hms;
      [|done].
    simpl. intros [= <- <-]. split; [done|].
    eexists items, _. split; [done|]. simpl.
    rewrite !Prototype_alter_last.
    split; [reflexivity|]. simpl.
    repeat (split; [done|]). by exists T, ms.
  - intros [= <- <-]. split; [done|].
    eexists items, _. split; [done|]. simpl.
    rewrite !Prototype_alter_last.
    split; [reflexivity|]. simpl. done.
Qed.

Lemma Prototype_get_characters {A} (f : Prototype.Character -> option A) n h1 h2 o :
  Prototype.characters h1 = Prototype.characters h2 ->
  Prototype.get f n h1 o = Prototype.get f n h2 o.
Proof.
  intros Heq. revert o. induction n as [|n IH]; intros o; [done|].
  simpl. rewrite Heq. destruct (Prototype.characters h2 !! o) as [c|]; [|done].
  destruct (f c); [done|]. by destruct (Prototype.proto c).
Qed.

Lemma Prototype_get_enough {A} (f : Prototype.Character -> option A) h :
  Prototype.wf h = true ->
  forall n m o, o < n -> o < m -> Prototype.get f n h o = Prototype.get f m h o.
Proof.
  intros Hwf. induction n as [|n IH]; intros [|m] o Hn Hm; try lia.
  simpl. destruct (Prototype.characters h !! o) as [c|] eqn:Ho; [|done].
  destruct (f c); [done|]. destruct (Prototype.proto c) as [p|] eqn:Hp; [|done].
  pose proof (Prototype_wf_lookup 0 _ o c p Hwf Ho Hp). apply IH; lia.
Qed.

Lemma Prototype_read_lt {A} (f : Prototype.Character -> option A) h o v :
  Prototype.read f h o = Some v -> o < length (Prototype.characters h).
Proof.
  unfold Prototype.read. simpl.
  destruct (Prototype.characters h !! o) as [c|] eqn:Ho; [|done].
  intros _. eauto using lookup_lt_Some.
Qed.

Lemma Prototype_items_of_lt h o items :
  Prototype.items_of h o = Some items -> o < length (Prototype.characters h).
Proof.
  unfold Prototype.items_of.
  destruct (Prototype.read Prototype.inventory h o) as [a|] eqn:Ha; [|done].
  intros _. eauto using Prototype_read_lt.
Qed.

(* a field that the clone has of its own *)
Lemma Prototype_read_own {A} (f : Prototype.Character -> option A) h' cs cobj v :
  Prototype.characters h' = cs ++ [cobj] -> f cobj = Some v ->
  Prototype.read f h' (length cs) = Some v.
Proof.
  intros Hcs Hf. unfold Prototype.read. simpl.
  rewrite Hcs, list_lookup_middle by done. by rewrite Hf.
Qed.

(* a field that the clone has not: that of the object it was made from *)
Lemma Prototype_read_inherited {A} (f : Prototype.Character -> option A) h h' cobj this :
  Prototype.wf h = true -> this < length (Prototype.characters h) ->
  Prototype.characters h' = Prototype.characters h ++ [cobj] ->
  f cobj = None -> Prototype.proto cobj = Some this ->
  Prototype.read f h' (length (Prototype.characters h)) = Prototype.read f h this.
Proof.
  intros Hwf Hthis Hcs Hf Hp. unfold Prototype.read at 1. simpl.
  rewrite Hcs, list_lookup_middle by done. rewrite Hf, Hp.
  rewrite (Prototype_get_frame f _ h h' this Hwf).
  - apply Prototype_get_enough; [done|lia|lia].
  - intros o Ho. rewrite Hcs. apply lookup_app_l. lia.
Qed.

(** X19.  clone() gives the clone an inventory of its own.  Right after
    the call the clone's inventory holds the items of the original's, in
    an array that is not the original's: an item pushed on either
    inventory afterwards does not show in the other. *)
Theorem X19_clone_copies_the_inventory this h c h' items item :
  Prototype.wf h = true ->
  Prototype.items_of h this = Some items ->
  Prototype.clone this h = Some (c, h') ->
  Prototype.items_of h' c = Some items /\
  Prototype.items_of h' this = Some items /\
  Prototype.items_of (Prototype.push_item item c h') this = Some items /\
  Prototype.items_of (Prototype.push_item item c h') c = Some (items ++ [item]) /\
  Prototype.items_of (Prototype.push_item item this h') c = Some items /\
  Prototype.items_of (Prototype.push_item item this h') this = Some (items ++ [item]).
Proof.
  intros Hwf Hitems Hclone.
  pose proof (Prototype_items_of_lt _ _ _ Hitems) as Hthis.
  destruct (Prototype_clone_spec this h c h' Hwf Hthis Hclone)
    as (-> & items' & cobj & Hitems' & Hcs & Hp & _ & _ & Hinv & Hinvs & _).
  assert (items' = items) as -> by congruence.
  unfold Prototype.items_of in Hitems.
  destruct (Prototype.read Prototype.inventory h this) as [a|] eqn:Ha; [|done].
  simpl in Hitems. pose proof (lookup_lt_Some _ _ _ Hitems) as Hlt.
  set (inv := length (Prototype.inventories h)) in *.
  assert (Hrc : Prototype.read Prototype.inventory h' (length (Prototype.characters h))
                = Some inv) by eauto using Prototype_read_own.
  assert (Hrt : Prototype.read Prototype.inventory h' this = Some a).
  { rewrite <- Ha. apply Prototype_read_frame; [done|done|].
    intros o Ho. rewrite Hcs. by apply lookup_app_l. }
  assert (Hic : Prototype.inventories h' !! inv = Some items).
  { rewrite Hinvs. by apply list_lookup_middle. }
  assert (Hit : Prototype.inventories h' !! a = Some items).
  { rewrite Hinvs, lookup_app_l; done. }
  assert (Hlen : length (Prototype.inventories h') = S inv).
  { rewrite Hinvs, length_app. simpl. lia. }
  assert (Hpush : forall o b xs,
            Prototype.read Prototype.inventory h' o = Some b ->
            Prototype.inventories h' !! b = Some xs ->
            forall o' b', Prototype.read Prototype.inventory h' o' = Some b' ->
              Prototype.items_of (Prototype.push_item item o h') o' =
              <[b := xs ++ [item]]> (Prototype.inventories h') !! b').
  { intros o b xs Hb Hxs o' b' Hb'. unfold Prototype.push_item. rewrite Hb, Hxs.
    unfold Prototype.items_of, Prototype.read.
    rewrite (Prototype_get_characters _ _ _ h') by done.
    fold (Prototype.read Prototype.inventory h' o'). by rewrite Hb'. }
  unfold Prototype.items_of at 1 2. rewrite Hrc, Hrt. simpl.
  split; [done|]. split; [done|].
  rewrite (Hpush _ _ _ Hrc Hic _ _ Hrt), (Hpush _ _ _ Hrc Hic _ _ Hrc),
    (Hpush _ _ _ Hrt Hit _ _ Hrc), (Hpush _ _ _ Hrt Hit _ _ Hrt).
  rewrite !list_lookup_insert_eq by lia.
  rewrite !list_lookup_insert_ne by lia. done.
Qed.

(** X20.  clone() does not copy the name and the health: the clone has
    none of its own and reads those of the object it was made from.  A
    health or a name assigned to the original after the call is the one
    the clone then shows, while one assigned to the clone leaves the
    original's as it was. *)
Theorem X20_clone_shares_the_scalar_fields this h c h' v n :
  Prototype.wf h = true -> this < length (Prototype.characters h) ->
  Prototype.clone this h = Some (c, h') ->
  Prototype.read Prototype.health h' c = Prototype.read Prototype.health h this /\
  Prototype.read Prototype.name h' c = Prototype.read Prototype.name h this /\
  Prototype.read Prototype.health
    (Prototype.assign (Prototype.set_health v) this h') c = Some v /\
  Prototype.read Prototype.name
    (Prototype.assign (Prototype.set_name n) this h') c = Some n /\
  Prototype.read Prototype.health
    (Prototype.assign (Prototype.set_health v) c h') this =
    Prototype.read Prototype.health h this.
Proof.
  intros Hwf Hthis Hclone.
  destruct (Prototype_clone_spec this h c h' Hwf Hthis Hclone)
    as (-> & items & cobj & _ & Hcs & Hp & Hname & Hhealth & _).
  destruct (lookup_lt_is_Some_2 (Prototype.characters h) this Hthis) as [c0 Hc0].
  split; [by eapply Prototype_read_inherited|].
  split; [by eapply Prototype_read_inherited|].
  assert (Hstep : forall {A} (f : Prototype.Character -> option A)
                         (g : Prototype.Character -> Prototype.Character) x,
            f cobj = None -> f (g c0) = Some x ->
            Prototype.read f (Prototype.assign g this h')
              (length (Prototype.characters h)) = Some x).
  { intros A f g x Hf Hg. unfold Prototype.read, Prototype.assign. simpl.
    rewrite Hcs, list_lookup_alter_ne, list_lookup_middle by (done || lia).
    rewrite Hf, Hp.
    destruct (length (Prototype.characters h)) as [|k] eqn:Hk; [lia|]. simpl.
    rewrite list_lookup_alter_eq, lookup_app_l, Hc0 by lia. simpl. by rewrite Hg. }
  split; [by apply Hstep|]. split; [by apply Hstep|].
  apply Prototype_read_frame; [done|done|].
  intros o Ho. unfold Prototype.assign. simpl.
  rewrite list_lookup_alter_ne, Hcs by lia. by apply lookup_app_l.
Qed.

(** X21.  clone() of a character that is in a team does not add the
    clone to that team.  The team and its array of members stay as they
    were; the clone gets a team object of its own, a plain copy with the
    team's name whose members are the team's with the clone in the place
    of the original.  That copy is not a Team: addMember on it throws. *)
Theorem X21_clone_gets_a_team_of_its_own this h items t T ms member :
  Prototype.wf h = true ->
  Prototype.items_of h this = Some items ->
  Prototype.read Prototype.team h this = Some t ->
  Prototype.teams h !! t = Some T ->
  Prototype.member_arrays h !! Prototype.members T = Some ms ->
  exists h',
    let c := length (Prototype.characters h) in
    let t' := length (Prototype.teams h) in
    Prototype.clone this h = Some (c, h') /\
    Prototype.read Prototype.team h' c = Some t' /\
    t' <> t /\
    Prototype.team_name <$> Prototype.teams h' !! t' = Some (Prototype.team_name T) /\
    Prototype.members_of h' c =
      Some (map (fun m => if Nat.eqb m this then c else m) ms) /\
    Prototype.teams h' !! t = Some T /\
    Prototype.member_arrays h' !! Prototype.members T = Some ms /\
    Prototype.members_of h' this = Some ms /\
    Prototype.addMember member t' h' = None.
Proof.
  intros Hwf Hitems Ht HT Hms.
  pose proof (Prototype_items_of_lt _ _ _ Hitems) as Hthis.
  destruct (Prototype.clone this h) as [[c h']|] eqn:Hclone.
  - pose proof (Prototype_clone_spec this h c h' Hwf Hthis Hclone) as Hspec.
    rewrite Ht in Hspec.
    destruct Hspec as (-> & items' & cobj & _ & Hcs & Hp & _ & _ & _ & _ &
                       T' & ms' & HT' & Hms' & Hteam & Hteams & Hmas).
    assert (T' = T) as -> by congruence. assert (ms' = ms) as -> by congruence.
    exists h'. cbv zeta. split; [done|].
    pose proof (lookup_lt_Some _ _ _ HT) as HtT.
    pose proof (lookup_lt_Some _ _ _ Hms) as HmT.
    assert (Hrc : Prototype.read Prototype.team h' (length (Prototype.characters h))
                  = Some (length (Prototype.teams h)))
      by eauto using Prototype_read_own.
    assert (Hrt : Prototype.read Prototype.team h' this = Some t).
    { rewrite <- Ht. apply Prototype_read_frame; [done|done|].
      intros o Ho. rewrite Hcs. by apply lookup_app_l. }
    assert (Hnew : Prototype.teams h' !! length (Prototype.teams h) =
                   Some (Prototype.mkTeam false (Prototype.team_name T)
                           (length (Prototype.member_arrays h)))).
    { rewrite Hteams. by apply list_lookup_middle. }
    assert (Hold : Prototype.teams h' !! t = Some T).
    { rewrite Hteams, lookup_app_l; done. }
    assert (Holdm : Prototype.member_arrays h' !! Prototype.members T = Some ms).
    { rewrite Hmas, lookup_app_l; done. }
    split; [done|]. split; [lia|]. split; [by rewrite Hnew|]. split.
    { unfold Prototype.members_of. rewrite Hrc, Hnew. simpl.
      rewrite Hmas. by apply list_lookup_middle. }
    split; [done|]. split; [done|]. split.
    { unfold Prototype.members_of. by rewrite Hrt, Hold. }
    unfold Prototype.addMember. by rewrite Hnew.
  - exfalso. revert Hclone. unfold Prototype.clone. cbv zeta.
    rewrite (Prototype_read_frame Prototype.inventory h _ this Hwf Hthis)
      by prototype_frame.
    cbn [Prototype.inventories Prototype.with_characters].
    fold (Prototype.items_of h this). rewrite Hitems.
    rewrite (Prototype_read_frame Prototype.team h _ this Hwf Hthis)
      by prototype_frame.
    rewrite Ht.
    cbn [Prototype.teams Prototype.member_arrays Prototype.with_characters
         Prototype.with_inventories Prototype.with_records Prototype.assign].
    rewrite HT. simpl. rewrite Hms. done.
Qed.

Lemma X19_clone_copies_the_inventory_witness :
  Prototype.wf Prototype.example = true /\
  Prototype.items_of Prototype.example 0 = Some ["Sword"] /\
  exists c h',
    Prototype.clone 0 Prototype.example = Some (c, h') /\
    Prototype.items_of (Prototype.push_item "Healing Potion" c h') 0 = Some ["Sword"] /\
    Prototype.items_of (Prototype.push_item "Healing Potion" c h') c =
      Some ["Sword"; "Healing Potion"].
Proof.
  split; [reflexivity|]. split; [reflexivity|].
  destruct (Prototype.clone 0 Prototype.example) as [[c h']|] eqn:Hclone;
    [|vm_compute in Hclone; discriminate].
  exists c, h'. split; [reflexivity|].
  destruct (X19_clone_copies_the_inventory 0 Prototype.example c h' ["Sword"]
              "Healing Potion") as (_ & _ & H1 & H2 & _);
    [reflexivity|reflexivity|exact Hclone|].
  split; [exact H1|exact H2].
Defined.

Lemma X20_clone_shares_the_scalar_fields_witness :
  Prototype.wf Prototype.example = true /\
  0 < length (Prototype.characters Prototype.example) /\
  exists c h',
    Prototype.clone 0 Prototype.example = Some (c, h') /\
    Prototype.read Prototype.health h' c = Some 100%Z /\
    Prototype.read Prototype.health
      (Prototype.assign (Prototype.set_health 1) 0 h') c = Some 1%Z.
Proof.
  split; [reflexivity|]. split; [simpl; lia|].
  destruct (Prototype.clone 0 Prototype.example) as [[c h']|] eqn:Hclone;
    [|vm_compute in Hclone; discriminate].
  exists c, h'. split; [reflexivity|].
  destruct (X20_clone_shares_the_scalar_fields 0 Prototype.example c h' 1 "x")
    as (H1 & _ & H2 & _); [reflexivity|simpl; lia|exact Hclone|].
  split; [exact H1|exact H2].
Defined.

Lemma X21_clone_gets_a_team_of_its_own_witness :
  Prototype.wf Prototype.example = true /\
  Prototype.read Prototype.team Prototype.example 0 = Some 0 /\
  exists h',
    Prototype.clone 0 Prototype.example = Some (1, h') /\
    Prototype.members_of h' 1 = Some [1] /\
    Prototype.members_of h' 0 = Some [0].
Proof.
  split; [reflexivity|]. split; [reflexivity|].
  destruct (X21_clone_gets_a_team_of_its_own 0 Prototype.example ["Sword"] 0
              (Prototype.mkTeam true "Fantasy Heroes" 0) [0] 0)
    as (h' & Hclone & _ & _ & _ & Hc & _ & _ & Ht & _);
    [reflexivity|reflexivity|reflexivity|reflexivity|reflexivity|].
  exists h'. split; [exact Hclone|]. split; [exact Hc|exact Ht].
Defined.
